(** * The open/close transition controller of the overlay (OverlayPopover.ts)

    The mixin [OverlayPopover] adds to an overlay the asynchronous pipeline
    [managePopoverOpen]: delay phase, DOM-attach phase, transition phase and
    focus phase.  The methods are embedded as terms of a small free monad
    [proc] whose operations are the things the TypeScript does to its
    surroundings: reading [this], writing [this.open], calling out
    (dispatchEvent, showPopover, focus, ...), suspending on an external
    promise, handing a callback to a collaborator.  Two interpreters give the
    meaning: [sync] runs one synchronous span (up to the next suspension) and
    [drive] plays a schedule of stimuli (the owner mutating the overlay, a
    suspended task or registered callback being resumed).

    Suspension points are the external promises: a frame, the open timer,
    the positioning engine; and the two callbacks given away, to the
    transition waiter and to the beforetoggle listener; and the turn of the
    microtask queue that every [await] of one of the controller's own async
    methods takes before the caller goes on.  Between two synchronous spans
    the owner and the platform may change the overlay in any way. *)

From Stdlib Require Import List Bool String Arith.
Import ListNotations.
Open Scope string_scope.
Open Scope list_scope.

(** ** Data model *)

(** A DOM node that can take focus is named by a number. *)
Definition Node := nat.

(** [OverlayTypes] of overlay-types.ts: the interaction type of the overlay. *)
Inductive OverlayTypes : Type := auto | hint | manual | modal | page.

(** The [receivesFocus] property: ['true' | 'false' | 'auto']. *)
Inductive ReceivesFocus : Type := rf_true | rf_false | rf_auto.

(** [this.triggerElement]: a real element or a [VirtualTrigger]
    ([None] is the JavaScript [null]). *)
Inductive TriggerElement : Type :=
| HTMLElement (n : Node)
| VirtualTrigger.

(** An [OpenableElement]: [el.open] is a boolean or undefined;
    [firstFocusableIn el]; for every slot of [el.querySelectorAll('slot')] the
    result of [firstFocusableSlottedIn slot]. *)
Record OpenableElement : Type := {
  el_open : option bool;
  el_firstFocusableIn : option Node;
  el_slots : list (option Node)
}.

(** What [dialogEl.matches(selector)] does: it answers or it throws. *)
Inductive MatchOutcome : Type :=
| Returns (b : bool)
| Throws.

(** The overlay object and the part of the platform the controller reads. *)
Record Overlay : Type := {
  open : bool;
  delayed : bool;
  receivesFocus : ReceivesFocus;
  type : OverlayTypes;
  triggerElement : option TriggerElement;
  isConnected : bool;
  elements : list OpenableElement;
  matches_popover_open : MatchOutcome;   (* this.dialogEl.matches(':popover-open') *)
  matches_open : MatchOutcome;           (* this.dialogEl.matches(':open') *)
  (* this.contains((this.getRootNode() as Document).activeElement) *)
  contains_activeElement : bool
}.

(** [this.dialogEl.matches(selector)].  The controller asks for two selectors;
    any other one is taken as unsupported by the platform. *)
Definition dialogEl_matches (o : Overlay) (selector : string) : MatchOutcome :=
  if selector =? ":popover-open" then matches_popover_open o
  else if selector =? ":open" then matches_open o
  else Throws.

Definition with_open (b : bool) (o : Overlay) : Overlay :=
  {| open := b; delayed := delayed o; receivesFocus := receivesFocus o;
     type := type o; triggerElement := triggerElement o;
     isConnected := isConnected o; elements := elements o;
     matches_popover_open := matches_popover_open o;
     matches_open := matches_open o;
     contains_activeElement := contains_activeElement o |}.

Definition with_elements (l : list OpenableElement) (o : Overlay) : Overlay :=
  {| open := open o; delayed := delayed o; receivesFocus := receivesFocus o;
     type := type o; triggerElement := triggerElement o;
     isConnected := isConnected o; elements := l;
     matches_popover_open := matches_popover_open o;
     matches_open := matches_open o;
     contains_activeElement := contains_activeElement o |}.

Definition with_probes (p q : MatchOutcome) (o : Overlay) : Overlay :=
  {| open := open o; delayed := delayed o; receivesFocus := receivesFocus o;
     type := type o; triggerElement := triggerElement o;
     isConnected := isConnected o; elements := elements o;
     matches_popover_open := p;
     matches_open := q;
     contains_activeElement := contains_activeElement o |}.

(** Events.  [BeforetoggleOpenEvent] and [BeforetoggleClosedEvent] are classes
    of OverlayBase; [Event] and [CustomEvent] carry the init dictionary the
    code passes. *)
Inductive DomEvent : Type :=
| BeforetoggleOpenEvent
| BeforetoggleClosedEvent
| Event (name : string) (bubbles composed : bool)
| CustomEvent (name : string) (bubbles composed : bool) (interaction : OverlayTypes).

(** Where an event is dispatched. *)
Inductive EventTarget : Type :=
| OnRoot                      (* this.dispatchEvent *)
| OnElement (index : nat)     (* el.dispatchEvent, el = this.elements[index] *)
| OnTrigger (n : Node).       (* this.triggerElement.dispatchEvent *)

(** Synchronous calls and writes of the controller. *)
Inductive Command : Type :=
| WriteOpen (b : bool)                      (* this.open = b *)
| WriteElOpen (index : nat) (b : bool)      (* el.open = b *)
| DispatchEvent (t : EventTarget) (e : DomEvent)
| ShowPopover                               (* this.dialogEl.showPopover() *)
| HidePopover                               (* this.dialogEl.hidePopover() *)
| FocusTrigger (n : Node)                   (* this.triggerElement.focus() *)
| FocusNode (n : Node)                      (* focusEl.focus() *)
| TimerClose                                (* overlayTimer.close(this) *)
| MatchesQuery (selector : string)          (* this.dialogEl.matches(selector) *)
| TransitionStart (index : nat)             (* the waiter runs the start callback *)
| ObservedStale.                            (* ghost: a comparison found this.open <> targetOpenState *)

(** What a task can be suspended on, or a callback registered for. *)
Inductive Waiting : Type :=
| Frame                         (* await nextFrame() *)
| OpenTimer                     (* await overlayTimer.openTimer(this) *)
| Position                      (* await this.managePosition() *)
| Transitionend (index : nat)   (* guaranteedAllTransitionend(el, _, cb) *)
| Beforetoggle                  (* addEventListener('beforetoggle', cb, { once: true }) *)
| Microtask.                    (* await this.method(...): the method has returned *)

(** ** Procedures *)

(** A method body: what it does next, and how it goes on.
    - [This k]: read the live overlay;
    - [Do c k]: a synchronous call or write;
    - [Await w k]: [await] on an external promise, resumed with its value;
    - [Matches s k]: [this.dialogEl.matches(s)], which may throw;
    - [TryCatch body handler k]: [try { body } catch { handler }];
    - [Detach p k]: call the async function [p] without awaiting it: it runs
      up to its first suspension, the rest goes on by itself;
    - [Register w cb k]: hand [cb] to a collaborator that calls it when [w]
      happens;
    - [GetFocusEl], [SetFocusEl]: the variable [focusEl] of makeTransition,
      which its closures share. *)
Inductive proc (A : Type) : Type :=
| Ret (a : A)
| This (k : Overlay -> proc A)
| Do (c : Command) (k : proc A)
| Await (w : Waiting) (k : bool -> proc A)
| Matches (selector : string) (k : bool -> proc A)
| TryCatch (body handler : proc bool) (k : bool -> proc A)
| Detach (p : proc unit) (k : proc A)
| Register (w : Waiting) (cb : proc unit) (k : proc A)
| GetFocusEl (k : option Node -> proc A)
| SetFocusEl (v : option Node) (k : proc A).

Arguments Ret {A} a.
Arguments This {A} k.
Arguments Do {A} c k.
Arguments Await {A} w k.
Arguments Matches {A} selector k.
Arguments TryCatch {A} body handler k.
Arguments Detach {A} p k.
Arguments Register {A} w cb k.
Arguments GetFocusEl {A} k.
Arguments SetFocusEl {A} v k.

Fixpoint bind {A B : Type} (p : proc A) (q : A -> proc B) : proc B :=
  match p with
  | Ret a => q a
  | This k => This (fun o => bind (k o) q)
  | Do c k => Do c (bind k q)
  | Await w k => Await w (fun b => bind (k b) q)
  | Matches s k => Matches s (fun b => bind (k b) q)
  | TryCatch body handler k => TryCatch body handler (fun b => bind (k b) q)
  | Detach p k => Detach p (bind k q)
  | Register w cb k => Register w cb (bind k q)
  | GetFocusEl k => GetFocusEl (fun v => bind (k v) q)
  | SetFocusEl v k => SetFocusEl v (bind k q)
  end.

Declare Scope proc_scope.
Delimit Scope proc_scope with proc.
Notation "x <- p ;; q" := (bind p (fun x => q))
  (at level 61, p at next level, right associativity) : proc_scope.
Notation "p ;; q" := (bind p (fun _ => q))
  (at level 61, right associativity) : proc_scope.
Open Scope proc_scope.

Definition this : proc Overlay := This Ret.
Definition call (c : Command) : proc unit := Do c (Ret tt).
Definition await (w : Waiting) : proc bool := Await w Ret.
Definition matches (selector : string) : proc bool := Matches selector Ret.
Definition try_catch (body handler : proc bool) : proc bool := TryCatch body handler Ret.
Definition detach (p : proc unit) : proc unit := Detach p (Ret tt).
Definition register (w : Waiting) (cb : proc unit) : proc unit := Register w cb (Ret tt).
Definition get_focusEl : proc (option Node) := GetFocusEl Ret.
Definition set_focusEl (v : option Node) : proc unit := SetFocusEl v (Ret tt).

(** ** Configurations and the two interpreters *)

(** What is recorded of a run, in the order it happens. *)
Inductive Entry : Type :=
| Called (c : Command)
| Awaiting (w : Waiting)     (* the running task suspends on w *)
| Resumed (w : Waiting)      (* a task or callback waiting for w is run *)
| Unhandled.                 (* an exception left a task *)

(** The state of a run: the overlay, the shared variable of the transition
    phase, the log, and the tasks and callbacks waiting to be resumed. *)
Record Config : Type := {
  world : Overlay;
  focusEl : option Node;     (* the variable focusEl shared by the closures of makeTransition *)
  log : list Entry;
  pool : list (Waiting * (bool -> proc unit))
}.

Definition set_world (o : Overlay) (c : Config) : Config :=
  {| world := o; focusEl := focusEl c; log := log c; pool := pool c |}.
Definition set_focus_var (v : option Node) (c : Config) : Config :=
  {| world := world c; focusEl := v; log := log c; pool := pool c |}.
Definition note (e : Entry) (c : Config) : Config :=
  {| world := world c; focusEl := focusEl c; log := log c ++ [e]; pool := pool c |}.
Definition park (w : Waiting) (k : bool -> proc unit) (c : Config) : Config :=
  {| world := world c; focusEl := focusEl c; log := log c; pool := pool c ++ [(w, k)] |}.
Definition set_pool (l : list (Waiting * (bool -> proc unit))) (c : Config) : Config :=
  {| world := world c; focusEl := focusEl c; log := log c; pool := l |}.

Fixpoint update_nth {X : Type} (n : nat) (f : X -> X) (l : list X) : list X :=
  match l, n with
  | [], _ => []
  | x :: r, O => f x :: r
  | x :: r, S m => x :: update_nth m f r
  end.

Definition set_el_open (b : bool) (el : OpenableElement) : OpenableElement :=
  {| el_open := Some b; el_firstFocusableIn := el_firstFocusableIn el;
     el_slots := el_slots el |}.

(** The effect of a synchronous call on the overlay: the two assignments of
    the controller.  What the platform does in answer to showPopover,
    hidePopover and focus, and what listeners do with a dispatched event, is
    not the controller's doing; it reaches the overlay as an [Owner] stimulus
    at the next suspension. *)
Definition effect (cmd : Command) (o : Overlay) : Overlay :=
  match cmd with
  | WriteOpen b => with_open b o
  | WriteElOpen i b => with_elements (update_nth i (set_el_open b) (elements o)) o
  | _ => o
  end.

(** A call is logged and takes effect. *)
Definition perform (cmd : Command) (c : Config) : Config :=
  note (Called cmd) (set_world (effect cmd (world c)) c).

(** How a synchronous span ends. *)
Inductive status (A : Type) : Type :=
| Done (a : A)
| Threw
| Parked (w : Waiting) (k : bool -> proc A).

Arguments Done {A} a.
Arguments Threw {A}.
Arguments Parked {A} w k.

(** [sync p c] runs [p] until it returns, throws or suspends. *)
Fixpoint sync {A : Type} (p : proc A) (c : Config) : status A * Config :=
  match p with
  | Ret a => (Done a, c)
  | This k => sync (k (world c)) c
  | Do cmd k => sync k (perform cmd c)
  | Await w k => (Parked w k, note (Awaiting w) c)
  | Matches s k =>
      let c1 := note (Called (MatchesQuery s)) c in
      match dialogEl_matches (world c) s with
      | Returns b => sync (k b) c1
      | Throws => (Threw, c1)
      end
  | TryCatch body handler k =>
      match sync body c with
      | (Done b, c1) => sync (k b) c1
      | (Parked w kb, c1) => (Parked w (fun r => TryCatch (kb r) handler k), c1)
      | (Threw, c1) =>
          match sync handler c1 with
          | (Done b, c2) => sync (k b) c2
          | (Parked w kh, c2) => (Parked w (fun r => bind (kh r) k), c2)
          | (Threw, c2) => (Threw, c2)
          end
      end
  | Detach p k =>
      match sync p c with
      | (Done _, c1) => sync k c1
      | (Parked w kp, c1) => sync k (park w kp c1)
      | (Threw, c1) => sync k (note Unhandled c1)
      end
  | Register w cb k => sync k (park w (fun _ => cb) c)
  | GetFocusEl k => sync (k (focusEl c)) c
  | SetFocusEl v k => sync k (set_focus_var v c)
  end.

(** Starting or resuming a task: run one span, then park or finish. *)
Definition settle (r : status unit * Config) : Config :=
  match r with
  | (Done _, c) => c
  | (Parked w k, c) => park w k c
  | (Threw, c) => note Unhandled c
  end.

Definition spawn (p : proc unit) (c : Config) : Config := settle (sync p c).

(** Nothing logged, nothing waiting. *)
Definition initial (o : Overlay) : Config :=
  {| world := o; focusEl := None; log := []; pool := [] |}.

(** The n-th element of a list and the list without it. *)
Fixpoint take_nth {X : Type} (n : nat) (l : list X) : option (X * list X) :=
  match l, n with
  | [], _ => None
  | x :: r, O => Some (x, r)
  | x :: r, S m =>
      match take_nth m r with
      | Some (y, r') => Some (y, x :: r')
      | None => None
      end
  end.

(** A stimulus from outside the controller. *)
Inductive Stimulus : Type :=
| Owner (f : Overlay -> Overlay)   (* the owner or the platform changes the overlay *)
| Wake (i : nat) (b : bool).       (* the i-th waiting task is resumed with answer b *)

(** The owner and the platform leave the overlay as [o]. *)
Definition Becomes (o : Overlay) : Stimulus := Owner (fun _ => o).

(** Resuming a waiting task takes it out of the pool: a callback runs once. *)
Definition wake (i : nat) (b : bool) (c : Config) : Config :=
  match take_nth i (pool c) with
  | Some ((w, k), rest) => spawn (k b) (note (Resumed w) (set_pool rest c))
  | None => c
  end.

Definition react (s : Stimulus) (c : Config) : Config :=
  match s with
  | Owner f => set_world (f (world c)) c
  | Wake i b => wake i b c
  end.

(** [drive sched c]: the configuration after the stimuli of [sched]. *)
Fixpoint drive (sched : list Stimulus) (c : Config) : Config :=
  match sched with
  | [] => c
  | s :: rest => drive rest (react s c)
  end.

(** ** The methods of OverlayWithPopover *)

(** [nextFrame()]: a promise resolved by requestAnimationFrame. *)
Definition nextFrame : proc unit := await Frame ;; Ret tt.

(** [await this.method(...)] for one of the controller's own async methods:
    the method runs inside the call up to its first suspension; once it has
    returned, the caller is resumed in a later turn of the microtask queue,
    never in the same synchronous span. *)
Definition awaited {A : Type} (p : proc A) : proc A :=
  r <- p ;;
  await Microtask ;;
  Ret r.

(** The comparison [this.open !== targetOpenState]; a difference found is
    recorded in the log (a ghost entry, nothing the platform sees). *)
Definition stale (targetOpenState : bool) : proc bool :=
  o <- this ;;
  if Bool.eqb (open o) targetOpenState then Ret false
  else call ObservedStale ;; Ret true.

(** Delay phase. *)
Definition manageDelay (targetOpenState : bool) : proc unit :=
  leave <- (if Bool.eqb targetOpenState false then Ret true
            else stale targetOpenState) ;;
  if leave then call TimerClose
  else
    o <- this ;;
    if delayed o then
      cancelled <- await OpenTimer ;;
      if cancelled then call (WriteOpen (negb targetOpenState)) else Ret tt
    else Ret tt.

(** DOM-attach phase. *)
Definition ensureOnDOM (targetOpenState : bool) : proc unit :=
  nextFrame ;;
  popoverOpen <- try_catch (matches ":popover-open") (Ret false) ;;
  open_ <- try_catch (matches ":open") (Ret false) ;;
  present <- (if targetOpenState then
                s <- stale targetOpenState ;;
                o <- this ;;
                Ret (negb s && negb popoverOpen && negb open_ && isConnected o)
              else Ret false) ;;
  (if present then
     call ShowPopover ;;
     await Position ;;
     Ret tt
   else Ret tt) ;;
  nextFrame.

(** Modelled from the spec: [guaranteedAllTransitionend] of OverlayBase, which
    is not among the sources.  The start callback [action] runs synchronously
    inside the call; the completion callback [cb] is kept by the waiter and
    runs once, later, when the transitions of the element have ended. *)
Definition guaranteedAllTransitionend (index : nat) (action cb : proc unit) : proc unit :=
  call (TransitionStart index) ;;
  action ;;
  register (Transitionend index) cb.

(** [childSlots.forEach(slot => { if (!focusEl) focusEl = firstFocusableSlottedIn(slot) })] *)
Fixpoint scan_slots (slots : list (option Node)) : proc unit :=
  match slots with
  | [] => Ret tt
  | slot :: rest =>
      f <- get_focusEl ;;
      (match f with
       | None => set_focusEl slot
       | Some _ => Ret tt
       end) ;;
      scan_slots rest
  end.

(** The closure [start(el, index)] of makeTransition. *)
Definition start (targetOpenState : bool) (el : OpenableElement) (index : nat) : proc unit :=
  (match el_open el with
   | Some _ => call (WriteElOpen index targetOpenState)
   | None => Ret tt
   end) ;;
  (if (index =? 0)%nat then
     call (DispatchEvent OnRoot
             (if targetOpenState then BeforetoggleOpenEvent else BeforetoggleClosedEvent))
   else Ret tt) ;;
  if negb targetOpenState then Ret tt
  else
    f <- get_focusEl ;;
    let f' := match f with Some n => Some n | None => el_firstFocusableIn el end in
    set_focusEl f' ;;
    match f' with
    | Some _ => Ret tt
    | None => scan_slots (el_slots el)
    end.

(** [this.triggerElement instanceof VirtualTrigger] *)
Definition hasVirtualTrigger (o : Overlay) : bool :=
  match triggerElement o with
  | Some VirtualTrigger => true
  | _ => false
  end.

(** The closure [reportChange] inside [finish(el, index)].  The three
    dispatches are one synchronous span, so [this] is read once;
    [this.triggerElement && !hasVirtualTrigger] holds exactly for a real
    element. *)
Definition reportChange (targetOpenState : bool) (index : nat) (eventName : string) : proc unit :=
  s <- stale targetOpenState ;;
  if s then Ret tt
  else
    nextFrame ;;
    o <- this ;;
    let virtual := hasVirtualTrigger o in
    call (DispatchEvent OnRoot (Event eventName virtual virtual)) ;;
    call (DispatchEvent (OnElement index) (Event eventName false false)) ;;
    match triggerElement o with
    | Some (HTMLElement n) =>
        call (DispatchEvent (OnTrigger n) (CustomEvent eventName true true (type o)))
    | _ => Ret tt
    end.

(** The closure [finish(el, index)] of makeTransition. *)
Definition finish (targetOpenState : bool) (index : nat) : proc unit :=
  s <- stale targetOpenState ;;
  if s then Ret tt
  else
    let eventName := if targetOpenState then "sp-opened" else "sp-closed" in
    if (0 <? index)%nat then
      o <- this ;;
      call (DispatchEvent (OnElement index) (CustomEvent eventName false false (type o)))
    else
      s' <- stale targetOpenState ;;
      if s' then Ret tt
      else
        popoverOpen <- try_catch (matches ":popover-open") (Ret false) ;;
        open_ <- try_catch (matches ":open") (Ret false) ;;
        o <- this ;;
        if negb (Bool.eqb targetOpenState true) && (popoverOpen || open_) && isConnected o
        then
          register Beforetoggle (detach (reportChange targetOpenState index eventName)) ;;
          call HidePopover
        else detach (reportChange targetOpenState index eventName).

(** [this.elements.forEach((el, index) => ...)] *)
Fixpoint forEach (l : list OpenableElement) (index : nat)
    (f : OpenableElement -> nat -> proc unit) : proc unit :=
  match l with
  | [] => Ret tt
  | el :: rest => f el index ;; forEach rest (S index) f
  end.

(** Transition phase: [let focusEl = null], the callbacks given to the
    waiter for every element, [return focusEl]. *)
Definition makeTransition (targetOpenState : bool) : proc (option Node) :=
  s <- stale targetOpenState ;;
  if s then Ret None
  else
    set_focusEl None ;;
    o <- this ;;
    forEach (elements o) 0
      (fun el index =>
         guaranteedAllTransitionend index
           (start targetOpenState el index) (finish targetOpenState index)) ;;
    get_focusEl.

(** Focus phase. *)
Definition applyFocus (targetOpenState : bool) (focusEl : option Node) : proc unit :=
  o <- this ;;
  if match receivesFocus o with rf_false => true | _ => false end
     || match type o with hint => true | _ => false end
  then Ret tt
  else
    nextFrame ;;
    nextFrame ;;
    s <- stale targetOpenState ;;
    o1 <- this ;;
    if negb s && negb (open o1) then
      match triggerElement o1 with
      | Some (HTMLElement n) =>
          if contains_activeElement o1 then call (FocusTrigger n) else Ret tt
      | _ => Ret tt
      end
    else
      match focusEl with
      | Some n => call (FocusNode n)
      | None => Ret tt
      end.

(** The body of [managePopoverOpen] from [await this.manageDelay(...)] on. *)
Definition pipeline_from_delay (targetOpenState : bool) : proc unit :=
  awaited (manageDelay targetOpenState) ;;
  s1 <- stale targetOpenState ;;
  if s1 then Ret tt
  else
    awaited (ensureOnDOM targetOpenState) ;;
    s2 <- stale targetOpenState ;;
    if s2 then Ret tt
    else
      focusEl <- awaited (makeTransition targetOpenState) ;;
      s3 <- stale targetOpenState ;;
      if s3 then Ret tt
      else awaited (applyFocus targetOpenState focusEl).

(** The pipeline driver. *)
Definition managePopoverOpen : proc unit :=
  o <- this ;;
  let targetOpenState := open o in
  s0 <- stale targetOpenState ;;
  if s0 then Ret tt
  else pipeline_from_delay targetOpenState.

(** ** Reading logs *)

(** The calls of a log. *)
Definition calls (l : list Entry) : list Command :=
  flat_map (fun e => match e with Called c => [c] | _ => [] end) l.

(** Externally observable side effects: a write to the overlay or to one of
    its elements, showing or hiding the surface, event dispatch, focus change. *)
Definition observable (c : Command) : bool :=
  match c with
  | WriteOpen _ | WriteElOpen _ _ | DispatchEvent _ _ | ShowPopover | HidePopover
  | FocusTrigger _ | FocusNode _ => true
  | _ => false
  end.

Definition effects (l : list Entry) : list Command := filter observable (calls l).

(** The events dispatched, with their targets. *)
Definition dispatched (l : list Entry) : list (EventTarget * DomEvent) :=
  flat_map (fun e => match e with
                     | Called (DispatchEvent t ev) => [(t, ev)]
                     | _ => []
                     end) l.

(** A sample overlay: open, with a real trigger and two openable elements
    whose first focusable descendant is node 7. *)
Definition sample_el : OpenableElement :=
  {| el_open := Some false; el_firstFocusableIn := Some 7; el_slots := [] |}.

Definition sample : Overlay :=
  {| open := true; delayed := false; receivesFocus := rf_auto; type := auto;
     triggerElement := Some (HTMLElement 1); isConnected := true;
     elements := [sample_el; sample_el];
     matches_popover_open := Returns false; matches_open := Returns false;
     contains_activeElement := true |}.

(** [n] times: resume the task that has waited longest. *)
Definition frames (n : nat) : list Stimulus := repeat (Wake 0 false) n.

(** Entries other than the ghost [ObservedStale]. *)
Definition visible (l : list Entry) : list Entry :=
  filter (fun e => match e with Called ObservedStale => false | _ => true end) l.

(** What a presentation probe reports once the failure is swallowed. *)
Definition reports (o : Overlay) (selector : string) : bool :=
  match dialogEl_matches o selector with
  | Returns b => b
  | Throws => false
  end.

(** ** Properties of procedures and of logs *)

(** A procedure that never issues a command of the class [bad], in any branch,
    in any continuation and in any callback it detaches or registers. *)
Fixpoint avoids (bad : Command -> bool) {A : Type} (p : proc A) : Prop :=
  match p with
  | Ret _ => True
  | This k => forall o, avoids bad (k o)
  | Do c k => bad c = false /\ avoids bad k
  | Await _ k => forall b, avoids bad (k b)
  | Matches s k => bad (MatchesQuery s) = false /\ forall b, avoids bad (k b)
  | TryCatch body handler k =>
      avoids bad body /\ avoids bad handler /\ forall b, avoids bad (k b)
  | Detach p k => avoids bad p /\ avoids bad k
  | Register _ cb k => avoids bad cb /\ avoids bad k
  | GetFocusEl k => forall v, avoids bad (k v)
  | SetFocusEl _ k => avoids bad k
  end.

Definition entry_avoids (bad : Command -> bool) (e : Entry) : Prop :=
  match e with
  | Called c => bad c = false
  | _ => True
  end.

(** The log has no [bad] command and no waiting task can issue one. *)
Definition config_avoids (bad : Command -> bool) (c : Config) : Prop :=
  Forall (entry_avoids bad) (log c)
  /\ Forall (fun t => forall b : bool, avoids bad (snd t b)) (pool c).

(** [guarded_by gate crit l]: no [crit] entry of [l] comes before the first
    [gate] entry. *)
Fixpoint guarded_by (gate crit : Entry -> bool) (l : list Entry) : bool :=
  match l with
  | [] => true
  | e :: rest =>
      if gate e then true
      else if crit e then false
      else guarded_by gate crit rest
  end.

(** The observable commands issued after the first [ObservedStale]. *)
Fixpoint after_stale (l : list Command) : list Command :=
  match l with
  | [] => []
  | ObservedStale :: rest => filter observable rest
  | _ :: rest => after_stale rest
  end.

Definition is_write_open (c : Command) : bool :=
  match c with
  | WriteOpen _ => true
  | _ => false
  end.

Definition is_owner (s : Stimulus) : bool :=
  match s with
  | Owner _ => true
  | Wake _ _ => false
  end.

(** ** What the synchronous part of the transition phase logs and registers *)

(** The commands of one start callback. *)
Definition start_calls (targetOpenState : bool) (el : OpenableElement) (index : nat)
  : list Command :=
  (match el_open el with
   | Some _ => [WriteElOpen index targetOpenState]
   | None => []
   end)
  ++ (if (index =? 0)%nat
      then [DispatchEvent OnRoot
              (if targetOpenState then BeforetoggleOpenEvent else BeforetoggleClosedEvent)]
      else []).

Fixpoint transition_calls (t : bool) (els : list OpenableElement) (i : nat) : list Command :=
  match els with
  | [] => []
  | el :: rest => (TransitionStart i :: start_calls t el i) ++ transition_calls t rest (S i)
  end.

(** The completion callbacks left with the waiter. *)
Fixpoint finishers (t : bool) (els : list OpenableElement) (i : nat)
  : list (Waiting * (bool -> proc unit)) :=
  match els with
  | [] => []
  | _ :: rest => (Transitionend i, fun _ => finish t i) :: finishers t rest (S i)
  end.

(** The body of the [forEach] of makeTransition. *)
Definition transition_body (t : bool) (el : OpenableElement) (index : nat) : proc unit :=
  guaranteedAllTransitionend index (start t el index) (finish t index).

(** ** Sample overlays and runs *)

Definition make_overlay (open_ delayed_ : bool) (rf : ReceivesFocus) (ty : OverlayTypes)
    (tr : option TriggerElement) (connected : bool) (p q : MatchOutcome)
    (inside : bool) : Overlay :=
  {| open := open_; delayed := delayed_; receivesFocus := rf; type := ty;
     triggerElement := tr; isConnected := connected;
     elements := [sample_el; sample_el];
     matches_popover_open := p; matches_open := q;
     contains_activeElement := inside |}.

(** An open overlay whose trigger is a [VirtualTrigger]. *)
Definition virtual_sample : Overlay :=
  make_overlay true false rf_auto auto (Some VirtualTrigger) true
    (Returns false) (Returns false) true.

(** An open overlay of type 'hint'. *)
Definition hint_sample : Overlay :=
  make_overlay true false rf_auto hint (Some (HTMLElement 1)) true
    (Returns false) (Returns false) true.

(** An open overlay with the open delay enabled. *)
Definition delayed_sample : Overlay :=
  make_overlay true true rf_auto auto (Some (HTMLElement 1)) true
    (Returns false) (Returns false) true.

(** A closing overlay whose surface the platform still presents. *)
Definition presented_sample : Overlay :=
  make_overlay false false rf_auto auto (Some (HTMLElement 1)) true
    (Returns true) (Returns false) true.

(** A closing overlay that is no longer attached to a document while its
    surface still matches [:open]. *)
Definition detached_sample : Overlay :=
  make_overlay false false rf_auto auto (Some (HTMLElement 1)) false
    (Returns false) (Returns true) true.

(** A closing overlay on a platform where both probes throw. *)
Definition unsupported_sample : Overlay :=
  make_overlay false false rf_auto auto (Some (HTMLElement 1)) true Throws Throws true.

(** A closed overlay, focus still inside it. *)
Definition closed_sample : Overlay := with_open false sample.

(** The stimuli that take an opening run of [sample] from the return of the
    delay phase to the start of the focus phase: the caller resumed, frame,
    positioning, frame, the caller resumed, and, the transition phase having
    left its two callbacks with the waiter, the caller resumed once more. *)
Definition to_focus_phase : list Stimulus := frames 5 ++ [Wake 2 false].

(** A full run of the pipeline for an opening overlay in which the owner
    closes the overlay between the two frames of the focus phase. *)
Definition stale_focus_run : Config :=
  drive (to_focus_phase ++ [Wake 2 false; Owner (with_open false); Wake 2 false])
    (spawn managePopoverOpen (initial sample)).

(** A transition phase of an opening overlay during which the owner closes
    the overlay, the transitions of the second element end, the owner opens
    the overlay again, and the transitions of the primary element end,
    followed by a frame. *)
Definition flicker_run : Config :=
  drive [Owner (with_open false); Wake 1 false; Owner (with_open true);
         Wake 0 false; Wake 0 false]
    (spawn (makeTransition true ;; Ret tt) (initial sample)).

(** The completion callback of the primary element, then a frame, for an
    opening overlay with a virtual trigger. *)
Definition virtual_report_run : Config :=
  drive [Wake 0 false] (spawn (finish true 0) (initial virtual_sample)).

(** The completion callback of the primary element, then a frame, for a
    closing overlay that is presented but detached. *)
Definition detached_close_run : Config :=
  drive [Wake 0 false] (spawn (finish false 0) (initial detached_sample)).

(** An uninterrupted opening run of the whole pipeline: the transitions end
    once the focus phase has begun. *)
Definition open_run : Config :=
  drive (to_focus_phase ++ frames 6) (spawn managePopoverOpen (initial sample)).

(** A delayed opening run whose timer is cancelled and whose owner opens the
    overlay again before the caller of the delay phase is resumed; nobody
    interferes after that. *)
Definition reopened_run : Config :=
  drive ([Wake 0 true; Owner (with_open true)] ++ to_focus_phase ++ frames 6)
    (spawn managePopoverOpen (initial delayed_sample)).

(** The completion callback of the primary element, then a frame, for an
    opening overlay with a real trigger. *)
Definition primary_report_run : Config :=
  drive [Wake 0 false] (spawn (finish true 0) (initial sample)).

(** The completion callback of the primary element, then a frame, on a
    platform where both probes throw. *)
Definition unsupported_close_run : Config :=
  drive [Wake 0 false] (spawn (finish false 0) (initial unsupported_sample)).

(** ** Recognising log entries *)

Definition event_name (e : DomEvent) : option string :=
  match e with
  | Event n _ _ => Some n
  | CustomEvent n _ _ _ => Some n
  | _ => None
  end.

Definition has_name (name : string) (e : DomEvent) : bool :=
  match event_name e with
  | Some n => String.eqb n name
  | None => false
  end.

(** Some event called [name] is dispatched, on any target. *)
Definition dispatches (name : string) (e : Entry) : bool :=
  match e with
  | Called (DispatchEvent _ ev) => has_name name ev
  | _ => false
  end.

(** An event called [name] is dispatched on the root element. *)
Definition dispatches_on_root (name : string) (e : Entry) : bool :=
  match e with
  | Called (DispatchEvent OnRoot ev) => has_name name ev
  | _ => false
  end.

(** The local event of the primary element: a plain [Event] on element 0. *)
Definition dispatches_on_primary (name : string) (e : Entry) : bool :=
  match e with
  | Called (DispatchEvent (OnElement 0) (Event n _ _)) => String.eqb n name
  | _ => false
  end.

(** An event called [name] is dispatched on the trigger element. *)
Definition dispatches_on_trigger (name : string) (e : Entry) : bool :=
  match e with
  | Called (DispatchEvent (OnTrigger _) ev) => has_name name ev
  | _ => false
  end.

Definition is_before_open (e : Entry) : bool :=
  match e with
  | Called (DispatchEvent OnRoot BeforetoggleOpenEvent) => true
  | _ => false
  end.

Definition is_start_entry (e : Entry) : bool :=
  match e with
  | Called (TransitionStart _) => true
  | _ => false
  end.

Definition is_completion (e : Entry) : bool :=
  match e with
  | Resumed (Transitionend _) => true
  | _ => false
  end.

Definition is_confirmation (e : Entry) : bool :=
  match e with
  | Resumed Beforetoggle => true
  | _ => false
  end.

Definition is_hide (e : Entry) : bool :=
  match e with
  | Called HidePopover => true
  | _ => false
  end.

(** [none_after mark crit l]: no [crit] entry of [l] comes after the first
    [mark] entry. *)
Fixpoint none_after (mark crit : Entry -> bool) (l : list Entry) : bool :=
  match l with
  | [] => true
  | e :: rest =>
      if mark e then forallb (fun x => negb (crit x)) rest
      else none_after mark crit rest
  end.

(** ** The tasks of an opening transition *)

(** The part of [reportChange] that runs after its frame. *)
Definition report_dispatch (index : nat) (eventName : string) : proc unit :=
  o <- this ;;
  let virtual := hasVirtualTrigger o in
  call (DispatchEvent OnRoot (Event eventName virtual virtual)) ;;
  call (DispatchEvent (OnElement index) (Event eventName false false)) ;;
  match triggerElement o with
  | Some (HTMLElement n) =>
      call (DispatchEvent (OnTrigger n) (CustomEvent eventName true true (type o)))
  | _ => Ret tt
  end.

(** What can be waiting while an opening transition is under way: a
    completion callback, or the report-change step of the primary element
    suspended on its frame. *)
Inductive opening_task : Waiting * (bool -> proc unit) -> Prop :=
| task_finish (i : nat) : opening_task (Transitionend i, fun _ => finish true i)
| task_report : opening_task (Frame, fun _ => report_dispatch 0 "sp-opened").

(** What one resumption of such a task may add to the log. *)
Definition chunk_ok (l : list Entry) : Prop :=
  forallb (fun e => negb (is_start_entry e)) l = true
  /\ guarded_by (dispatches_on_root "sp-opened") (dispatches_on_primary "sp-opened") l = true
  /\ guarded_by (dispatches_on_primary "sp-opened") (dispatches_on_trigger "sp-opened") l = true.

(** ** What the transition phase computes *)

(** The places where [start] looks for a focus candidate in an element, in
    the order it looks: [firstFocusableIn(el)], then every slot. *)
Definition candidates (el : OpenableElement) : list (option Node) :=
  el_firstFocusableIn el :: el_slots el.

Fixpoint first_some (l : list (option Node)) : option Node :=
  match l with
  | [] => None
  | Some n :: _ => Some n
  | None :: rest => first_some rest
  end.

(** The first focus candidate of a list of elements. *)
Definition first_candidate (els : list OpenableElement) : option Node :=
  first_some (flat_map candidates els).

(** [start] keeps a candidate already found. *)
Definition keep_or (v : option Node) (l : list (option Node)) : option Node :=
  match v with
  | Some n => Some n
  | None => first_some l
  end.

(** What [start] does to the open flag of an element: set when it is
    defined, left undefined otherwise. *)
Definition mark_open (t : bool) (el : OpenableElement) : OpenableElement :=
  match el_open el with
  | Some _ => set_el_open t el
  | None => el
  end.

(** The before-toggle event of a transition. *)
Definition beforetoggle_event (t : bool) : DomEvent :=
  if t then BeforetoggleOpenEvent else BeforetoggleClosedEvent.

(** ** Reading the overlay as the phases do *)

(** [this.receivesFocus === 'false' || this.type === 'hint'] *)
Definition focus_disabled (o : Overlay) : bool :=
  match receivesFocus o with rf_false => true | _ => false end
  || match type o with hint => true | _ => false end.

(** The condition under which the DOM-attach phase presents the surface. *)
Definition presents (t : bool) (o : Overlay) : bool :=
  t && Bool.eqb (open o) t
  && negb (reports o ":popover-open") && negb (reports o ":open")
  && isConnected o.

(** The name of the event that reports a finished transition. *)
Definition report_name (t : bool) : string :=
  if t then "sp-opened" else "sp-closed".

Definition is_hide_call (c : Command) : bool :=
  match c with
  | HidePopover => true
  | _ => false
  end.

Definition is_show_call (c : Command) : bool :=
  match c with
  | ShowPopover => true
  | _ => false
  end.

(* el.open = b *)
Definition is_write_el (c : Command) : bool :=
  match c with
  | WriteElOpen _ _ => true
  | _ => false
  end.

(** The open flags of the elements, in order. *)
Definition open_flags (o : Overlay) : list (option bool) :=
  map el_open (elements o).

(** The condition under which the completion callback of the primary element
    asks the platform to hide the surface first. *)
Definition hides_first (t : bool) (o : Overlay) : bool :=
  negb t && (reports o ":popover-open" || reports o ":open") && isConnected o.

(** The dispatches of the report-change step for the overlay as it is after
    the frame. *)
Definition report_events (name : string) (o : Overlay) : list Command :=
  DispatchEvent OnRoot (Event name (hasVirtualTrigger o) (hasVirtualTrigger o))
  :: DispatchEvent (OnElement 0) (Event name false false)
  :: match triggerElement o with
     | Some (HTMLElement n) =>
         [DispatchEvent (OnTrigger n) (CustomEvent name true true (type o))]
     | _ => []
     end.

(** The end of [managePopoverOpen]: transition phase, checkpoint, focus phase. *)
Definition transition_and_focus (t : bool) : proc unit :=
  focusEl <- awaited (makeTransition t) ;;
  s3 <- stale t ;;
  if s3 then Ret tt
  else awaited (applyFocus t focusEl).

(** The focus call of an uninterrupted run. *)
Definition expected_focus (t : bool) (o : Overlay) : list Command :=
  if t then
    match first_candidate (elements o) with
    | Some n => [FocusNode n]
    | None => []
    end
  else
    match triggerElement o with
    | Some (HTMLElement n) => if contains_activeElement o then [FocusTrigger n] else []
    | _ => []
    end.

(** ** Continuing a run *)

(** [behind l F c]: the configuration [c] reached in a run that has already
    logged [l] and in which the tasks [F] wait in front of those of [c]. *)
Definition behind (l : list Entry) (F : list (Waiting * (bool -> proc unit)))
    (c : Config) : Config :=
  {| world := world c; focusEl := focusEl c; log := l ++ log c; pool := F ++ pool c |}.

(** A stimulus for a pool with [n] more tasks in front. *)
Definition later (n : nat) (s : Stimulus) : Stimulus :=
  match s with
  | Owner f => Owner f
  | Wake i b => Wake (i + n) b
  end.

(** ** General facts about the interpreters *)

Lemma take_nth_In :
  forall (X : Type) (l : list X) (n : nat) (x : X) (rest : list X),
    take_nth n l = Some (x, rest) ->
    In x l /\ (forall y, In y rest -> In y l).
Proof.
  induction l as [|a l IH]; intros [|n] x rest H; cbn in H; try discriminate.
  - inversion H; subst. split; [now left | intros y Hy; now right].
  - destruct (take_nth n l) as [[y r']|] eqn:E; [|discriminate].
    inversion H; subst. destruct (IH _ _ _ E) as [Hx Hr]. split.
    + now right.
    + intros z [Hz|Hz]; [now left | right; auto].
Qed.

(** A span only appends to the log. *)
Lemma sync_log_extends :
  forall (A : Type) (p : proc A) (c : Config),
    exists l, log (snd (sync p c)) = log c ++ l.
Proof.
  induction p as [A a|A k IH|A cmd k IH|A w k IH|A s k IH
                 |A body IHb handler IHh k IHk|A p IHp k IHk
                 |A w cb IHcb k IHk|A k IH|A v k IH]; intros c; cbn [sync].
  - exists []. now rewrite app_nil_r.
  - apply IH.
  - destruct (IH (perform cmd c)) as [l Hl]. exists (Called cmd :: l).
    rewrite Hl. cbn. now rewrite <- app_assoc.
  - exists [Awaiting w]. reflexivity.
  - destruct (dialogEl_matches (world c) s) as [b|].
    + destruct (IH b (note (Called (MatchesQuery s)) c)) as [l Hl].
      exists (Called (MatchesQuery s) :: l). rewrite Hl. cbn. now rewrite <- app_assoc.
    + exists [Called (MatchesQuery s)]. reflexivity.
  - destruct (IHb c) as [l1 H1].
    destruct (sync body c) as [[b| |w kb] c1]; cbn [snd] in *.
    + destruct (IHk b c1) as [l2 H2]. exists (l1 ++ l2).
      rewrite H2, H1. now rewrite app_assoc.
    + destruct (IHh c1) as [l2 H2].
      destruct (sync handler c1) as [[b| |w kh] c2]; cbn [snd] in *.
      * destruct (IHk b c2) as [l3 H3]. exists (l1 ++ l2 ++ l3).
        rewrite H3, H2, H1. now rewrite !app_assoc.
      * exists (l1 ++ l2). rewrite H2, H1. now rewrite app_assoc.
      * exists (l1 ++ l2). rewrite H2, H1. now rewrite app_assoc.
    + exists l1. exact H1.
  - destruct (IHp c) as [l1 H1].
    destruct (sync p c) as [[u| |w kp] c1]; cbn [snd] in *.
    + destruct (IHk c1) as [l2 H2]. exists (l1 ++ l2).
      rewrite H2, H1. now rewrite app_assoc.
    + destruct (IHk (note Unhandled c1)) as [l2 H2]. exists (l1 ++ Unhandled :: l2).
      rewrite H2. cbn. rewrite H1. now rewrite <- !app_assoc.
    + destruct (IHk (park w kp c1)) as [l2 H2]. exists (l1 ++ l2).
      rewrite H2. cbn. rewrite H1. now rewrite app_assoc.
  - destruct (IHk (park w (fun _ => cb) c)) as [l Hl]. exists l. exact Hl.
  - apply IH.
  - destruct (IH (set_focus_var v c)) as [l Hl]. exists l. exact Hl.
Qed.

Lemma settle_log_extends :
  forall (r : status unit * Config), exists l, log (settle r) = log (snd r) ++ l.
Proof.
  intros [[u| |w k] c]; cbn.
  - exists []. now rewrite app_nil_r.
  - exists [Unhandled]. reflexivity.
  - exists []. now rewrite app_nil_r.
Qed.

Lemma spawn_log_extends :
  forall p c, exists l, log (spawn p c) = log c ++ l.
Proof.
  intros p c. unfold spawn.
  destruct (settle_log_extends (sync p c)) as [l2 H2].
  destruct (sync_log_extends _ p c) as [l1 H1].
  exists (l1 ++ l2). rewrite H2, H1. now rewrite app_assoc.
Qed.

Lemma react_log_extends :
  forall s c, exists l, log (react s c) = log c ++ l.
Proof.
  intros [f|i b] c; cbn.
  - exists []. now rewrite app_nil_r.
  - unfold wake. destruct (take_nth i (pool c)) as [[[w k] rest]|].
    + destruct (spawn_log_extends (k b) (note (Resumed w) (set_pool rest c))) as [l Hl].
      exists (Resumed w :: l). rewrite Hl. cbn. now rewrite <- app_assoc.
    + exists []. now rewrite app_nil_r.
Qed.

Lemma drive_log_extends :
  forall sched c, exists l, log (drive sched c) = log c ++ l.
Proof.
  induction sched as [|s sched IH]; intros c; cbn [drive].
  - exists []. now rewrite app_nil_r.
  - destruct (IH (react s c)) as [l2 H2].
    destruct (react_log_extends s c) as [l1 H1].
    exists (l1 ++ l2). rewrite H2, H1. now rewrite app_assoc.
Qed.

(** With nothing waiting, nothing more is logged. *)
Lemma drive_idle :
  forall sched c, pool c = [] ->
    log (drive sched c) = log c /\ pool (drive sched c) = [].
Proof.
  induction sched as [|s sched IH]; intros c Hp; cbn [drive]; [now split|].
  destruct s as [f|i b]; cbn [react].
  - destruct (IH (set_world (f (world c)) c) Hp) as [H1 H2]. now split.
  - unfold wake. rewrite Hp. destruct i; cbn [take_nth]; now apply IH.
Qed.

(** *** Commands a procedure never issues *)

Section Avoids.
Variable bad : Command -> bool.

Lemma avoids_bind :
  forall (A : Type) (p : proc A) (B : Type) (q : A -> proc B),
    avoids bad p -> (forall a, avoids bad (q a)) -> avoids bad (bind p q).
Proof.
  induction p as [A a|A k IH|A cmd k IH|A w k IH|A s k IH
                 |A body IHb handler IHh k IHk|A p IHp k IHk
                 |A w cb IHcb k IHk|A k IH|A v k IH];
    intros B q Hp Hq; cbn [bind avoids] in *; intuition auto.
Qed.

Lemma config_avoids_note :
  forall e c, entry_avoids bad e -> config_avoids bad c -> config_avoids bad (note e c).
Proof.
  intros e c He [Hl Hp]. split; cbn; [|exact Hp].
  apply Forall_app. split; [exact Hl | now constructor].
Qed.

Lemma config_avoids_park :
  forall w k c, (forall b : bool, avoids bad (k b)) ->
    config_avoids bad c -> config_avoids bad (park w k c).
Proof.
  intros w k c Hk [Hl Hp]. split; cbn; [exact Hl|].
  apply Forall_app. split; [exact Hp | now constructor].
Qed.

Lemma sync_avoids :
  forall (A : Type) (p : proc A) (c : Config),
    avoids bad p -> config_avoids bad c ->
    config_avoids bad (snd (sync p c))
    /\ match fst (sync p c) with
       | Parked _ k => forall b, avoids bad (k b)
       | _ => True
       end.
Proof.
  induction p as [A a|A k IH|A cmd k IH|A w k IH|A s k IH
                 |A body IHb handler IHh k IHk|A p IHp k IHk
                 |A w cb IHcb k IHk|A k IH|A v k IH];
    intros c Hp Hc; cbn [sync avoids] in *.
  - now split.
  - apply IH; auto.
  - destruct Hp as [Hb Hk]. apply IH; [exact Hk|].
    unfold perform. apply config_avoids_note; [exact Hb|].
    destruct Hc as [Hl Hq]. now split.
  - split; [|exact Hp]. now apply config_avoids_note.
  - destruct Hp as [Hb Hk].
    assert (Hn : config_avoids bad (note (Called (MatchesQuery s)) c))
      by now apply config_avoids_note.
    destruct (dialogEl_matches (world c) s) as [b|]; [now apply IH | now split].
  - destruct Hp as [Hbody [Hhandler Hk]].
    destruct (IHb c Hbody Hc) as [H1 H1'].
    destruct (sync body c) as [[b| |w kb] c1]; cbn [fst snd] in *.
    + now apply IHk.
    + destruct (IHh c1 Hhandler H1) as [H2 H2'].
      destruct (sync handler c1) as [[b| |w kh] c2]; cbn [fst snd] in *.
      * now apply IHk.
      * now split.
      * split; [exact H2|]. intros b. now apply avoids_bind.
    + split; [exact H1|]. intros b. cbn [avoids]. auto.
  - destruct Hp as [Hp Hk].
    destruct (IHp c Hp Hc) as [H1 H1'].
    destruct (sync p c) as [[u| |w kp] c1]; cbn [fst snd] in *.
    + now apply IHk.
    + apply IHk; [exact Hk|]. now apply config_avoids_note.
    + apply IHk; [exact Hk|]. now apply config_avoids_park.
  - destruct Hp as [Hcb Hk]. apply IHk; [exact Hk|]. now apply config_avoids_park.
  - apply IH; auto.
  - apply IH; [exact Hp|]. destruct Hc as [Hl Hq]. now split.
Qed.

Lemma spawn_avoids :
  forall p c, avoids bad p -> config_avoids bad c -> config_avoids bad (spawn p c).
Proof.
  intros p c Hp Hc. unfold spawn.
  destruct (sync_avoids _ p c Hp Hc) as [H1 H2].
  destruct (sync p c) as [[u| |w k] c1]; cbn [fst snd settle] in *.
  - exact H1.
  - now apply config_avoids_note.
  - now apply config_avoids_park.
Qed.

Lemma react_avoids :
  forall s c, config_avoids bad c -> config_avoids bad (react s c).
Proof.
  intros [f|i b] c Hc; cbn [react].
  - destruct Hc as [Hl Hp]. now split.
  - unfold wake. destruct (take_nth i (pool c)) as [[[w k] rest]|] eqn:E; [|exact Hc].
    destruct (take_nth_In _ _ _ _ _ E) as [Hin Hrest]. destruct Hc as [Hl Hp].
    rewrite Forall_forall in Hp. apply spawn_avoids.
    + apply (Hp _ Hin).
    + apply config_avoids_note; [exact I|]. split; [exact Hl|].
      cbn. apply Forall_forall. intros t Ht. apply Hp. now apply Hrest.
Qed.

Lemma drive_avoids :
  forall sched c, config_avoids bad c -> config_avoids bad (drive sched c).
Proof.
  induction sched as [|s sched IH]; intros c Hc; cbn [drive]; [exact Hc|].
  apply IH. now apply react_avoids.
Qed.

(** A procedure that avoids [bad], run from scratch under any schedule,
    never logs a [bad] command. *)
Lemma run_avoids :
  forall p o sched cmd,
    avoids bad p ->
    In (Called cmd) (log (drive sched (spawn p (initial o)))) ->
    bad cmd = false.
Proof.
  intros p o sched cmd Hp Hin.
  assert (H : config_avoids bad (drive sched (spawn p (initial o)))).
  { apply drive_avoids, spawn_avoids; [exact Hp|]. split; constructor. }
  destruct H as [Hl _]. rewrite Forall_forall in Hl. exact (Hl _ Hin).
Qed.
End Avoids.

(** *** Sequencing after a span that returns *)

Lemma sync_bind_done :
  forall (A : Type) (p : proc A) (B : Type) (q : A -> proc B) (c c1 : Config) (a : A),
    sync p c = (Done a, c1) -> sync (bind p q) c = sync (q a) c1.
Proof.
  induction p as [A a0|A k IH|A cmd k IH|A w k IH|A s k IH
                 |A body IHb handler IHh k IHk|A p IHp k IHk
                 |A w cb IHcb k IHk|A k IH|A v k IH];
    intros B q c c1 a H; cbn [sync bind] in *.
  - now inversion H.
  - now apply IH.
  - now apply IH.
  - discriminate.
  - destruct (dialogEl_matches (world c) s) as [b|]; [now apply IH | discriminate].
  - destruct (sync body c) as [[b| |w kb] c2].
    + now apply IHk.
    + destruct (sync handler c2) as [[b| |w kh] c3]; try discriminate.
      now apply IHk.
    + discriminate.
  - destruct (sync p c) as [[u| |w kp] c2]; now apply IHk.
  - now apply IHk.
  - now apply IH.
  - now apply IH.
Qed.

Lemma sync_bind_bind_done :
  forall (A : Type) (p : proc A) (B C : Type) (f : A -> proc B) (g : B -> proc C)
         (c c1 : Config) (a : A),
    sync p c = (Done a, c1) -> sync (bind (bind p f) g) c = sync (bind (f a) g) c1.
Proof.
  induction p as [A a0|A k IH|A cmd k IH|A w k IH|A s k IH
                 |A body IHb handler IHh k IHk|A p IHp k IHk
                 |A w cb IHcb k IHk|A k IH|A v k IH];
    intros B C f g c c1 a H; cbn [sync bind] in *.
  - now inversion H.
  - now apply IH.
  - now apply IH.
  - discriminate.
  - destruct (dialogEl_matches (world c) s) as [b|]; [now apply IH | discriminate].
  - destruct (sync body c) as [[b| |w kb] c2].
    + now apply IHk.
    + destruct (sync handler c2) as [[b| |w kh] c3]; try discriminate.
      now apply IHk.
    + discriminate.
  - destruct (sync p c) as [[u| |w kp] c2]; now apply IHk.
  - now apply IHk.
  - now apply IH.
  - now apply IH.
Qed.

(** ** Orders in logs *)

Lemma guarded_by_app :
  forall gate crit l1 l2,
    guarded_by gate crit l1 = true -> guarded_by gate crit l2 = true ->
    guarded_by gate crit (l1 ++ l2) = true.
Proof.
  intros gate crit. induction l1 as [|e l1 IH]; intros l2 H1 H2; cbn in *; [exact H2|].
  destruct (gate e); [reflexivity|]. destruct (crit e); [discriminate|]. now apply IH.
Qed.

Lemma guarded_by_gated :
  forall gate crit l1 l2,
    guarded_by gate crit l1 = true -> existsb gate l1 = true ->
    guarded_by gate crit (l1 ++ l2) = true.
Proof.
  intros gate crit. induction l1 as [|e l1 IH]; intros l2 H1 H2; cbn in *; [discriminate|].
  destruct (gate e); [reflexivity|]. destruct (crit e); [discriminate|]. now apply IH.
Qed.

Lemma guarded_by_without :
  forall gate crit l,
    forallb (fun e => negb (crit e)) l = true -> guarded_by gate crit l = true.
Proof.
  intros gate crit. induction l as [|e l IH]; intros H; cbn in *; [reflexivity|].
  apply andb_prop in H. destruct H as [He Hl].
  destruct (gate e); [reflexivity|]. destruct (crit e); [discriminate|]. now apply IH.
Qed.

Lemma guarded_by_reaches_gate :
  forall gate crit l e x,
    forallb (fun y => negb (crit y)) l = true -> gate e = true ->
    guarded_by gate crit (l ++ e :: x) = true.
Proof.
  intros gate crit. induction l as [|y l IH]; intros e x Hl He; cbn in *.
  - now rewrite He.
  - apply andb_prop in Hl. destruct Hl as [Hy Hl].
    destruct (gate y); [reflexivity|]. destruct (crit y); [discriminate|]. now apply IH.
Qed.

Lemma none_after_without :
  forall mark crit l,
    forallb (fun e => negb (crit e)) l = true -> none_after mark crit l = true.
Proof.
  intros mark crit. induction l as [|e l IH]; intros H; cbn in *; [reflexivity|].
  apply andb_prop in H. destruct H as [He Hl].
  destruct (mark e); [exact Hl | now apply IH].
Qed.

Lemma none_after_app :
  forall mark crit l1 l2,
    forallb (fun e => negb (mark e)) l1 = true ->
    forallb (fun e => negb (crit e)) l2 = true ->
    none_after mark crit (l1 ++ l2) = true.
Proof.
  intros mark crit. induction l1 as [|e l1 IH]; intros l2 H1 H2; cbn in *.
  - now apply none_after_without.
  - apply andb_prop in H1. destruct H1 as [He Hl].
    destruct (mark e); [discriminate | now apply IH].
Qed.

Lemma forallb_map_Called :
  forall (f : Entry -> bool) (l : list Command),
    Forall (fun c => f (Called c) = true) l -> forallb f (map Called l) = true.
Proof.
  intros f. induction 1 as [|c l Hc Hl IH]; [reflexivity|]. cbn. now rewrite Hc, IH.
Qed.



(** Membership in a log that has been computed. *)
Ltac in_log :=
  repeat match goal with
         | H : In _ _ |- _ => cbn in H
         | H : _ \/ _ |- _ => destruct H
         | H : False |- _ => contradiction
         | H : _ = ?e |- _ => is_var e; subst e
         | H : Called _ = Called _ |- _ => inversion H; clear H; subst
         | H : @eq Entry _ _ |- _ => discriminate H
         end.

(** ** Sample runs *)

Example open_run_calls :
  calls (log open_run) =
    [MatchesQuery ":popover-open"; MatchesQuery ":open"; ShowPopover;
     TransitionStart 0; WriteElOpen 0 true;
     DispatchEvent OnRoot BeforetoggleOpenEvent;
     TransitionStart 1; WriteElOpen 1 true;
     MatchesQuery ":popover-open"; MatchesQuery ":open";
     DispatchEvent (OnElement 1) (CustomEvent "sp-opened" false false auto);
     DispatchEvent OnRoot (Event "sp-opened" false false);
     DispatchEvent (OnElement 0) (Event "sp-opened" false false);
     DispatchEvent (OnTrigger 1) (CustomEvent "sp-opened" true true auto);
     FocusNode 7].
Proof. reflexivity. Qed.

Example open_run_ends : pool open_run = [] /\ open (world open_run) = true.
Proof. split; reflexivity. Qed.

Example unsupported_close_run_log :
  log unsupported_close_run =
    [Called (MatchesQuery ":popover-open"); Called (MatchesQuery ":open");
     Awaiting Frame; Resumed Frame;
     Called (DispatchEvent OnRoot (Event "sp-closed" false false));
     Called (DispatchEvent (OnElement 0) (Event "sp-closed" false false));
     Called (DispatchEvent (OnTrigger 1) (CustomEvent "sp-closed" true true auto))].
Proof. reflexivity. Qed.

(** ** Pipeline driver *)

(** C10: the comparison before the delay phase compares [open] with the
    snapshot just taken from it, so [managePopoverOpen] always behaves as its
    body from the delay phase on; the check after the delay phase can abort
    the run, as it does when the open timer of [delayed_sample] is cancelled. *)
Theorem first_check_never_aborts :
  (forall c : Config,
     sync managePopoverOpen c = sync (pipeline_from_delay (open (world c))) c)
  /\ (let c := drive [Wake 0 true; Wake 0 false]
                 (spawn managePopoverOpen (initial delayed_sample)) in
      log c = [Awaiting OpenTimer; Resumed OpenTimer; Called (WriteOpen false);
               Awaiting Microtask; Resumed Microtask; Called ObservedStale]
      /\ pool c = []).
Proof.
  split.
  - intros [w fe l pl]. destruct w as [op dl rf ty tr ic els m1 m2 ca].
    destruct op; reflexivity.
  - split; reflexivity.
Qed.

(** ** Delay phase *)

(** C5, counterexample: the open timer of [delayed_sample] resolves as
    cancelled and the delay phase writes [open = false]; the owner opens the
    overlay again before the caller of the delay phase is resumed, so the
    checkpoint after the phase finds [open] equal to the target and the same
    run goes on to dispatch [sp-opened].  So it is not true that no
    [sp-opened] is dispatched for every run whose timer is cancelled. *)
Lemma reopened_run_opens :
  (In (Called (WriteOpen false)) (log reopened_run)
   /\ existsb (dispatches "sp-opened") (log reopened_run) = true
   /\ dispatched (log reopened_run) =
        [(OnRoot, BeforetoggleOpenEvent);
         (OnElement 1, CustomEvent "sp-opened" false false auto);
         (OnRoot, Event "sp-opened" false false);
         (OnElement 0, Event "sp-opened" false false);
         (OnTrigger 1, CustomEvent "sp-opened" true true auto)])
  /\ ~ (forall (o : Overlay) (sched : list Stimulus),
          open o = true -> delayed o = true ->
          forall e,
            In e (log (drive (Wake 0 true :: sched) (spawn managePopoverOpen (initial o)))) ->
            dispatches "sp-opened" e = false).
Proof.
  split.
  - split; [vm_compute; auto 10 | split; reflexivity].
  - intros H.
    specialize (H delayed_sample (Owner (with_open true) :: to_focus_phase ++ frames 6)
                  eq_refl eq_refl
                  (Called (DispatchEvent OnRoot (Event "sp-opened" false false)))).
    assert (Hin : In (Called (DispatchEvent OnRoot (Event "sp-opened" false false)))
                    (log (drive (Wake 0 true :: Owner (with_open true)
                                   :: to_focus_phase ++ frames 6)
                            (spawn managePopoverOpen (initial delayed_sample))))).
    { vm_compute. auto 40. }
    specialize (H Hin). vm_compute in H. discriminate H.
Qed.

(** C5, amended: when an open is delayed and the timer resolves as cancelled,
    the delay phase writes [open = false]: [open] is false when the phase
    returns, whatever the owner did while the timer ran.  The caller is
    resumed a turn later; if [open] is still false then, the run of the
    pipeline ends at the checkpoint: nothing is left waiting and under no
    later schedule does it dispatch any event, so no [sp-opened] is
    dispatched.  On a close target, or when the target no longer matches
    [open], the phase cancels the timer and returns with the overlay
    untouched. *)
Theorem manageDelay_cancelled :
  forall (t : bool) (o o1 o2 : Overlay) (b : bool) (sched : list Stimulus),
    (t = true -> open o = true -> delayed o = true ->
       let c := drive [Becomes o1; Wake 0 true] (spawn (manageDelay t) (initial o)) in
       let run := drive [Becomes o1; Wake 0 true; Becomes o2; Wake 0 b]
                    (spawn managePopoverOpen (initial o)) in
       open (world c) = false /\ pool c = []
       /\ In (Called (WriteOpen false)) (log c)
       /\ (open o2 = false ->
           pool run = []
           /\ dispatched (log (drive sched run)) = []
           /\ (forall e, In e (log (drive sched run)) -> dispatches "sp-opened" e = false)))
    /\ ((t = false \/ open o <> t) ->
        let c := spawn (manageDelay t) (initial o) in
        world c = o /\ pool c = [] /\ visible (log c) = [Called TimerClose]).
Proof.
  intros t o o1 o2 b sched. split.
  - intros Ht Hop Hdl. subst t.
    destruct o as [op dl rf ty tr ic els m1 m2 ca]. cbn in Hop, Hdl. subst op dl.
    intros c run. split; [reflexivity|]. split; [reflexivity|].
    split; [vm_compute; auto|].
    intros Ho2.
    destruct o2 as [op2 dl2 rf2 ty2 tr2 ic2 els2 m12 m22 ca2]. cbn in Ho2. subst op2.
    assert (Hrun : pool run = []) by reflexivity.
    destruct (drive_idle sched run Hrun) as [Hlog _].
    rewrite Hlog.
    split; [reflexivity|]. split; [reflexivity|].
    intros e He. vm_compute in He. in_log; reflexivity.
  - intros H. destruct o as [op dl rf ty tr ic els m1 m2 ca].
    destruct t, op; cbn in H; try (repeat split; reflexivity).
    all: exfalso; destruct H as [H|H]; [discriminate | now apply H].
Qed.

Lemma manageDelay_cancelled_witness :
  (open (world (drive [Becomes closed_sample; Wake 0 true]
                  (spawn (manageDelay true) (initial delayed_sample)))) = false
   /\ dispatched (log (drive [Wake 0 false; Wake 0 false]
                         (drive [Becomes closed_sample; Wake 0 true;
                                 Becomes closed_sample; Wake 0 false]
                            (spawn managePopoverOpen (initial delayed_sample))))) = [])
  /\ visible (log (spawn (manageDelay false) (initial closed_sample))) = [Called TimerClose].
Proof.
  split.
  - pose proof (proj1 (manageDelay_cancelled true delayed_sample closed_sample
                         closed_sample false [Wake 0 false; Wake 0 false])
                  eq_refl eq_refl eq_refl) as H.
    cbv zeta in H. split; [apply H | apply H; reflexivity].
  - pose proof (proj2 (manageDelay_cancelled false closed_sample closed_sample
                         closed_sample false [])
                  (or_introl eq_refl)) as H.
    cbv zeta in H. apply H.
Defined.

(** ** Presentation probes *)

(** C8: in the DOM-attach phase and in the completion callback a probe that
    throws is indistinguishable from one that answers false: the log, and so
    every later decision, is the same; no exception leaves the task, and the
    DOM-attach phase runs to its end. *)
Theorem probe_failures_swallowed :
  forall (t : bool) (index : nat) (q : MatchOutcome) (o o1 o2 o3 : Overlay)
         (b1 b2 b3 : bool),
    let attach w :=
      drive [Becomes w; Wake 0 b1; Becomes o2; Wake 0 b2; Becomes o3; Wake 0 b3]
        (spawn (ensureOnDOM t) (initial o)) in
    let complete w := spawn (finish t index) (initial w) in
    (log (attach (with_probes Throws q o1)) = log (attach (with_probes (Returns false) q o1))
     /\ log (attach (with_probes q Throws o1)) = log (attach (with_probes q (Returns false) o1))
     /\ ~ In Unhandled (log (attach o1))
     /\ pool (attach o1) = [])
    /\ (log (complete (with_probes Throws q o1))
          = log (complete (with_probes (Returns false) q o1))
        /\ pool (complete (with_probes Throws q o1))
          = pool (complete (with_probes (Returns false) q o1))
        /\ log (complete (with_probes q Throws o1))
          = log (complete (with_probes q (Returns false) o1))
        /\ pool (complete (with_probes q Throws o1))
          = pool (complete (with_probes q (Returns false) o1))
        /\ ~ In Unhandled (log (complete o1))).
Proof.
  intros t index q o o1 o2 o3 b1 b2 b3 attach complete. subst attach complete.
  destruct o1 as [op dl rf ty tr ic els m1 m2 ca]. unfold with_probes. cbn [open delayed
    receivesFocus type triggerElement isConnected elements contains_activeElement].
  split.
  - destruct t, op, ic, q as [[|]|], m1 as [[|]|], m2 as [[|]|];
      (repeat split; try reflexivity); vm_compute; intros H; in_log.
  - destruct index as [|i], t, op, ic, q as [[|]|], m1 as [[|]|], m2 as [[|]|];
      (repeat split; try reflexivity); vm_compute; intros H; in_log.
Qed.

(** ** DOM-attach phase *)

(** C6: in every run of the DOM-attach phase, however the owner and the
    platform leave the overlay at the three suspension points, one frame is
    awaited, the two probes are made, showPopover followed by managePosition
    is issued exactly when the target is open, live [open] equals the target,
    neither probe reports the surface presented and the overlay is connected,
    and one more frame is awaited before the phase returns. *)
Theorem ensureOnDOM_presents_iff :
  forall (targetOpenState : bool) (o o1 o2 o3 : Overlay) (b1 b2 b3 : bool),
    let present :=
      targetOpenState && Bool.eqb (open o1) targetOpenState
      && negb (reports o1 ":popover-open") && negb (reports o1 ":open")
      && isConnected o1 in
    let c := drive [Becomes o1; Wake 0 b1; Becomes o2; Wake 0 b2; Becomes o3; Wake 0 b3]
               (spawn (ensureOnDOM targetOpenState) (initial o)) in
    pool c = []
    /\ visible (log c) =
         [Awaiting Frame; Resumed Frame;
          Called (MatchesQuery ":popover-open"); Called (MatchesQuery ":open")]
         ++ (if present
             then [Called ShowPopover; Awaiting Position; Resumed Position]
             else [])
         ++ [Awaiting Frame; Resumed Frame].
Proof.
  intros t o o1 o2 o3 b1 b2 b3.
  destruct o1 as [op dl rf ty tr ic els [[|]|] [[|]|] ca];
    destruct t, op, ic; vm_compute; split; reflexivity.
Qed.

(** ** Transition phase: the synchronous part *)

Lemma scan_slots_span :
  forall slots c, exists c',
    sync (scan_slots slots) c = (Done tt, c')
    /\ log c' = log c /\ pool c' = pool c /\ world c' = world c.
Proof.
  induction slots as [|slot rest IH]; intros c; cbn [scan_slots].
  - exists c. repeat split.
  - cbn [bind get_focusEl sync]. destruct (focusEl c) as [n|]; cbn [bind set_focusEl sync].
    + apply IH.
    + destruct (IH (set_focus_var slot c)) as [c' [H1 [H2 [H3 H4]]]].
      exists c'. repeat split; assumption.
Qed.

Lemma transition_element_span :
  forall t el i c, exists c',
    sync (guaranteedAllTransitionend i (start t el i) (finish t i)) c = (Done tt, c')
    /\ log c' = log c ++ map Called (TransitionStart i :: start_calls t el i)
    /\ pool c' = pool c ++ [(Transitionend i, fun _ => finish t i)]
    /\ open (world c') = open (world c).
Proof.
  intros t el i c.
  destruct c as [w fe l pl]. destruct el as [[b|] ff slots].
  all: destruct i, t, fe, ff; cbn -[finish].
  all: try (eexists; split; [reflexivity|]; cbn -[finish];
            rewrite <- ?app_assoc; repeat split; reflexivity).
  all: match goal with
       | |- context [sync (bind (scan_slots ?s) ?q) ?c0] =>
           destruct (scan_slots_span s c0) as [c1 [H1 [H2 [H3 H4]]]];
           rewrite (sync_bind_done _ (scan_slots s) _ q c0 c1 tt H1)
       end.
  all: cbn -[finish]; eexists; (split; [reflexivity|]); cbn -[finish];
       rewrite H2, H3, H4; cbn -[finish]; rewrite <- ?app_assoc; repeat split; reflexivity.
Qed.

Lemma forEach_span :
  forall t els i c, exists c',
    sync (forEach els i (transition_body t)) c = (Done tt, c')
    /\ log c' = log c ++ map Called (transition_calls t els i)
    /\ pool c' = pool c ++ finishers t els i
    /\ open (world c') = open (world c).
Proof.
  intros t. induction els as [|el rest IH]; intros i c; cbn [forEach].
  - exists c. cbn. rewrite !app_nil_r. repeat split.
  - destruct (transition_element_span t el i c) as [c1 [H1 [H2 [H3 H4]]]].
    rewrite (sync_bind_done _ _ _ _ _ _ _ H1).
    destruct (IH (S i) c1) as [c2 [K1 [K2 [K3 K4]]]].
    exists c2. split; [exact K1|]. rewrite K2, K3, K4, H2, H3, H4.
    cbn [transition_calls finishers]. rewrite !map_app, <- !app_assoc.
    repeat split.
Qed.

Lemma makeTransition_span :
  forall t c, open (world c) = t ->
    exists v c',
      sync (makeTransition t) c = (Done v, c')
      /\ log c' = log c ++ map Called (transition_calls t (elements (world c)) 0)
      /\ pool c' = pool c ++ finishers t (elements (world c)) 0
      /\ open (world c') = open (world c).
Proof.
  intros t c Ht. unfold makeTransition.
  change (fun (el : OpenableElement) (index : nat) =>
            guaranteedAllTransitionend index (start t el index) (finish t index))
    with (transition_body t).
  destruct c as [w fe l pl]. cbn [world] in Ht.
  cbn -[forEach transition_body]. rewrite Ht, Bool.eqb_reflx. cbn -[forEach transition_body].
  destruct (forEach_span t (elements w) 0
              (set_focus_var None {| world := w; focusEl := fe; log := l; pool := pl |}))
    as [c1 [H1 [H2 [H3 H4]]]].
  rewrite (sync_bind_done _ _ _ _ _ _ _ H1). cbn.
  cbn in H2, H3, H4. exists (focusEl c1), c1. repeat split; congruence.
Qed.

Lemma makeTransition_stale :
  forall t c, open (world c) <> t ->
    sync (makeTransition t) c = (Done None, note (Called ObservedStale) c).
Proof.
  intros t c Ht. destruct c as [w fe l pl]. cbn [world] in Ht.
  unfold makeTransition. cbn -[forEach].
  destruct (Bool.eqb (open w) t) eqn:E.
  - apply Bool.eqb_prop in E. contradiction.
  - reflexivity.
Qed.


Lemma transition_calls_plain :
  forall (f : Entry -> bool) t els i,
    (forall j, f (Called (TransitionStart j)) = true) ->
    (forall j b, f (Called (WriteElOpen j b)) = true) ->
    f (Called (DispatchEvent OnRoot BeforetoggleOpenEvent)) = true ->
    f (Called (DispatchEvent OnRoot BeforetoggleClosedEvent)) = true ->
    forallb f (map Called (transition_calls t els i)) = true.
Proof.
  intros f t els i H1 H2 H3 H4. apply forallb_map_Called. revert i.
  induction els as [|el rest IH]; intros i; cbn [transition_calls]; [constructor|].
  apply Forall_app. split; [|apply IH].
  constructor; [apply H1|]. unfold start_calls. apply Forall_app. split.
  - destruct (el_open el); repeat constructor. apply H2.
  - destruct (i =? 0)%nat; repeat constructor. destruct t; assumption.
Qed.

(** ** Report-change step *)

Lemma reportChange_parts :
  forall t index name,
    reportChange t index name =
    (s <- stale t ;; if s then Ret tt else nextFrame ;; report_dispatch index name).
Proof. reflexivity. Qed.

(** C2, counterexample: with a [VirtualTrigger] the root-level event of the
    completed run [virtual_report_run] is dispatched bubbling and composed;
    so it is not true that with a virtual trigger every root-level event is
    non-bubbling and non-composed. *)
Lemma virtual_root_event_bubbles :
  (triggerElement virtual_sample = Some VirtualTrigger
   /\ dispatched (log virtual_report_run) =
        [(OnRoot, Event "sp-opened" true true);
         (OnElement 0, Event "sp-opened" false false)])
  /\ ~ (forall (o : Overlay) (sched : list Stimulus) (name : string) (b c : bool),
          triggerElement o = Some VirtualTrigger ->
          In (Called (DispatchEvent OnRoot (Event name b c)))
            (log (drive sched (spawn (finish true 0) (initial o)))) ->
          b = false /\ c = false).
Proof.
  split; [split; reflexivity|].
  intros H.
  destruct (H virtual_sample [Wake 0 false] "sp-opened" true true eq_refl) as [Hb _].
  - vm_compute. auto 10.
  - discriminate.
Qed.

(** C2, amended: the report-change step of a run that is still current,
    after its frame, dispatches the root-level event bubbling and composed
    exactly when the trigger is a [VirtualTrigger], then the local
    non-bubbling event on the element, and, when the trigger is a real
    element, a bubbling, composed, detail-carrying event on the trigger;
    with a virtual trigger nothing is dispatched on the trigger, and with a
    real one the root-level event neither bubbles nor is composed. *)
Theorem reportChange_events :
  forall (t : bool) (index : nat) (name : string) (o o1 : Overlay) (b : bool),
    open o = t ->
    let c := drive [Becomes o1; Wake 0 b] (spawn (reportChange t index name) (initial o)) in
    effects (log c) =
      match triggerElement o1 with
      | Some VirtualTrigger =>
          [DispatchEvent OnRoot (Event name true true);
           DispatchEvent (OnElement index) (Event name false false)]
      | Some (HTMLElement n) =>
          [DispatchEvent OnRoot (Event name false false);
           DispatchEvent (OnElement index) (Event name false false);
           DispatchEvent (OnTrigger n) (CustomEvent name true true (type o1))]
      | None =>
          [DispatchEvent OnRoot (Event name false false);
           DispatchEvent (OnElement index) (Event name false false)]
      end.
Proof.
  intros t index name o o1 b Ht c. subst c t.
  destruct o as [op dl rf ty tr ic els m1 m2 ca].
  destruct o1 as [op1 dl1 rf1 ty1 [[n1|]|] ic1 els1 m11 m21 ca1];
    destruct op; reflexivity.
Qed.

Lemma reportChange_events_witness :
  effects (log (drive [Becomes sample; Wake 0 false]
                  (spawn (reportChange true 0 "sp-opened") (initial sample)))) =
    [DispatchEvent OnRoot (Event "sp-opened" false false);
     DispatchEvent (OnElement 0) (Event "sp-opened" false false);
     DispatchEvent (OnTrigger 1) (CustomEvent "sp-opened" true true auto)]
  /\ effects (log (drive [Becomes virtual_sample; Wake 0 false]
                     (spawn (reportChange true 0 "sp-opened") (initial sample)))) =
    [DispatchEvent OnRoot (Event "sp-opened" true true);
     DispatchEvent (OnElement 0) (Event "sp-opened" false false)].
Proof.
  split.
  - exact (reportChange_events true 0 "sp-opened" sample sample false eq_refl).
  - exact (reportChange_events true 0 "sp-opened" sample virtual_sample false eq_refl).
Defined.

(** ** Hide before report on close *)

(** While the only waiting task waits for [w], nothing of the class [crit]
    is logged before [w] happens. *)
Lemma only_after_resumption :
  forall gate crit sched c w k,
    pool c = [(w, k)] ->
    gate (Resumed w) = true ->
    forallb (fun e => negb (crit e)) (log c) = true ->
    guarded_by gate crit (log (drive sched c)) = true.
Proof.
  intros gate crit. induction sched as [|s sched IH]; intros c w k Hp Hg Hl; cbn [drive].
  - now apply guarded_by_without.
  - destruct s as [f|i b]; cbn [react].
    + apply (IH (set_world (f (world c)) c) w k); assumption.
    + unfold wake. rewrite Hp. destruct i as [|i]; cbn [take_nth].
      * destruct (drive_log_extends sched
                    (spawn (k b) (note (Resumed w) (set_pool [] c)))) as [l2 H2].
        destruct (spawn_log_extends (k b) (note (Resumed w) (set_pool [] c))) as [l1 H1].
        rewrite H2, H1. cbn [log note set_pool]. rewrite <- !app_assoc. cbn [app].
        now apply guarded_by_reaches_gate.
      * destruct i; cbn; now apply (IH c w k).
Qed.

(** C3, counterexample: the overlay [detached_sample] is closing, the
    [:open] probe reports it presented, but it is not connected: no hide
    request is issued and the closed events are dispatched without any
    confirmation from the platform. *)
Lemma detached_close_reports_without_hide :
  (dispatched (log detached_close_run) =
     [(OnRoot, Event "sp-closed" false false);
      (OnElement 0, Event "sp-closed" false false);
      (OnTrigger 1, CustomEvent "sp-closed" true true auto)]
   /\ existsb is_hide (log detached_close_run) = false
   /\ guarded_by is_confirmation (dispatches "sp-closed") (log detached_close_run) = false)
  /\ ~ (forall o : Overlay,
          open o = false ->
          reports o ":popover-open" = true \/ reports o ":open" = true ->
          In (Called HidePopover) (log (spawn (finish false 0) (initial o)))).
Proof.
  split; [repeat split|].
  intros H.
  specialize (H detached_sample eq_refl (or_intror eq_refl)).
  vm_compute in H. in_log.
Qed.

(** C3, amended: when the completion callback of the primary element runs
    for a close that is still current, a probe reports the surface presented
    and the overlay is connected, the hide request is issued at once and,
    under every schedule, no [sp-closed] event is dispatched before the
    platform's beforetoggle notification, which itself comes after the hide
    request. *)
Theorem close_reports_after_hide :
  forall (o : Overlay) (sched : list Stimulus),
    open o = false ->
    isConnected o = true ->
    reports o ":popover-open" = true \/ reports o ":open" = true ->
    let c0 := spawn (finish false 0) (initial o) in
    In (Called HidePopover) (log c0)
    /\ guarded_by is_confirmation (dispatches "sp-closed") (log (drive sched c0)) = true
    /\ guarded_by is_hide is_confirmation (log (drive sched c0)) = true.
Proof.
  intros o sched Hop Hic Hrep c0. subst c0.
  destruct o as [op dl rf ty tr ic els m1 m2 ca]. cbn in Hop, Hic. subst op ic.
  assert (Hcase : m1 = Returns true \/ m2 = Returns true).
  { destruct Hrep as [H|H]; [left|right];
      [destruct m1 as [[|]|] | destruct m2 as [[|]|]]; cbn in H;
      try reflexivity; discriminate. }
  clear Hrep.
  destruct m1 as [[|]|], m2 as [[|]|];
    try (exfalso; destruct Hcase; discriminate).
  all: split; [vm_compute; auto 6|].
  all: split;
    [ eapply only_after_resumption; reflexivity
    | match goal with
      | |- guarded_by _ _ (log (drive ?s ?c)) = true =>
          destruct (drive_log_extends s c) as [x Hx]; rewrite Hx;
          apply guarded_by_gated; reflexivity
      end ].
Qed.

Lemma close_reports_after_hide_witness :
  guarded_by is_confirmation (dispatches "sp-closed")
    (log (drive [Wake 0 false; Wake 0 false]
            (spawn (finish false 0) (initial presented_sample)))) = true.
Proof.
  exact (proj1 (proj2 (close_reports_after_hide presented_sample
                         [Wake 0 false; Wake 0 false]
                         eq_refl eq_refl (or_introl eq_refl)))).
Defined.

(** ** Transition phase: what an opening run can log, and in which order *)

Lemma chunk_ok_app : forall X Y, chunk_ok X -> chunk_ok Y -> chunk_ok (X ++ Y).
Proof.
  intros X Y [X1 [X2 X3]] [Y1 [Y2 Y3]]. repeat split.
  - rewrite forallb_app, X1, Y1. reflexivity.
  - now apply guarded_by_app.
  - now apply guarded_by_app.
Qed.

Lemma opening_task_step :
  forall t, opening_task t ->
    forall b c, exists X new,
      log (spawn (snd t b) c) = log c ++ X
      /\ pool (spawn (snd t b) c) = pool c ++ new
      /\ Forall opening_task new
      /\ chunk_ok X.
Proof.
  intros t Ht b [w fe l pl]. destruct w as [op dl rf ty tr ic els m1 m2 ca].
  destruct Ht as [i|]; cbn [snd].
  - destruct i as [|i], op, m1 as [[|]|], m2 as [[|]|].
    all: unfold spawn; cbn; rewrite <- ?app_assoc; cbn [app].
    all: eexists; eexists; (split; [reflexivity|]).
    all: try (split; [reflexivity|]; split; [repeat constructor | repeat split]).
    all: try (split; [symmetry; apply app_nil_r|]; split; [constructor | repeat split]).
  - destruct tr as [[n|]|].
    all: unfold spawn; cbn; rewrite <- ?app_assoc; cbn [app].
    all: eexists; exists []; (split; [reflexivity|]).
    all: split; [symmetry; apply app_nil_r|]; split; [constructor | repeat split].
Qed.

Lemma opening_tasks_run :
  forall sched c,
    Forall opening_task (pool c) ->
    exists X, log (drive sched c) = log c ++ X /\ chunk_ok X.
Proof.
  induction sched as [|s sched IH]; intros c Hc; cbn [drive].
  - exists []. split; [now rewrite app_nil_r | repeat split].
  - destruct s as [f|i b]; cbn [react].
    + apply (IH (set_world (f (world c)) c)). exact Hc.
    + unfold wake. destruct (take_nth i (pool c)) as [[[w k] rest]|] eqn:E; [|now apply IH].
      destruct (take_nth_In _ _ _ _ _ E) as [Hin Hrest].
      rewrite Forall_forall in Hc.
      destruct (opening_task_step (w, k) (Hc _ Hin) b
                  (note (Resumed w) (set_pool rest c))) as [X [new [H1 [H2 [H3 H4]]]]].
      cbn [snd] in H1, H2.
      destruct (IH (spawn (k b) (note (Resumed w) (set_pool rest c)))) as [Y [K1 K2]].
      { rewrite H2. cbn. apply Forall_app. split; [|exact H3].
        apply Forall_forall. intros t Ht. apply Hc. now apply Hrest. }
      exists ((Resumed w :: X) ++ Y). split.
      * rewrite K1, H1. cbn. now rewrite <- !app_assoc.
      * apply chunk_ok_app; [|exact K2].
        destruct H4 as [A1 [A2 A3]]. repeat split; cbn; assumption.
Qed.

Lemma finishers_opening :
  forall els i, Forall opening_task (finishers true els i).
Proof.
  induction els as [|el rest IH]; intros i; cbn; constructor; [apply task_finish | apply IH].
Qed.

(** C4, counterexample: in [primary_report_run], the completion callback of
    the primary element of an uninterrupted opening run, the root-level
    [sp-opened] is dispatched before the local event of the primary element,
    not after it; the whole pipeline run [open_run] shows the same order. *)
Lemma root_event_precedes_local :
  (dispatched (log primary_report_run) =
     [(OnRoot, Event "sp-opened" false false);
      (OnElement 0, Event "sp-opened" false false);
      (OnTrigger 1, CustomEvent "sp-opened" true true auto)]
   /\ guarded_by (dispatches_on_primary "sp-opened") (dispatches_on_root "sp-opened")
        (log open_run) = false)
  /\ ~ (forall (o : Overlay) (sched : list Stimulus),
          guarded_by (dispatches_on_primary "sp-opened") (dispatches_on_root "sp-opened")
            (log (drive sched (spawn (finish true 0) (initial o)))) = true).
Proof.
  split; [split; reflexivity|].
  intros H. specialize (H sample [Wake 0 false]).
  vm_compute in H. discriminate.
Qed.

(** C4, amended: in every run of an opening transition phase, under every
    schedule, the before-open event is dispatched before any [sp-opened]
    event; no start callback runs after a completion callback has run; the
    local [sp-opened] of the primary element is dispatched only after the
    root-level [sp-opened], and the event on the trigger only after that
    local event.  When the run is current at its start, the log begins with
    the start callbacks of all the elements, in order, and none follows. *)
Theorem open_transition_order :
  forall (o : Overlay) (sched : list Stimulus),
    let l := log (drive sched (spawn (makeTransition true ;; Ret tt) (initial o))) in
    guarded_by is_before_open (dispatches "sp-opened") l = true
    /\ none_after is_completion is_start_entry l = true
    /\ guarded_by (dispatches_on_root "sp-opened") (dispatches_on_primary "sp-opened") l = true
    /\ guarded_by (dispatches_on_primary "sp-opened") (dispatches_on_trigger "sp-opened") l
       = true
    /\ (open o = true ->
        exists rest,
          l = map Called (transition_calls true (elements o) 0) ++ rest
          /\ forallb (fun e => negb (is_start_entry e)) rest = true).
Proof.
  intros o sched l. subst l. unfold spawn.
  destruct (open o) eqn:E.
  - destruct (makeTransition_span true (initial o) E) as [v [c' [H1 [H2 [H3 _]]]]].
    rewrite (sync_bind_done _ _ _ _ _ _ _ H1). cbn [sync settle].
    cbn [initial log pool world app] in H2, H3.
    remember (elements o) as els eqn:Els. clear Els.
    assert (Hp : Forall opening_task (pool c')) by (rewrite H3; apply finishers_opening).
    destruct (opening_tasks_run sched c' Hp) as [X [HX [X1 [X2 X3]]]].
    rewrite HX, H2.
    split; [|split; [|split; [|split]]]; [| | | |intros _; exists X; now split].
    + destruct els as [|el rest].
      * cbn [finishers] in H3.
        destruct (drive_idle sched c' H3) as [Hlog _]. rewrite Hlog in HX.
        assert (HXnil : X = []).
        { apply (app_inv_head (log c')). rewrite app_nil_r. symmetry. exact HX. }
        rewrite HXnil. reflexivity.
      * apply guarded_by_gated.
        -- apply guarded_by_without. now apply transition_calls_plain.
        -- cbn [transition_calls]. unfold start_calls.
           destruct (el_open el); cbn; reflexivity.
    + apply none_after_app; [|exact X1]. now apply transition_calls_plain.
    + apply guarded_by_app; [|exact X2].
      apply guarded_by_without. now apply transition_calls_plain.
    + apply guarded_by_app; [|exact X3].
      apply guarded_by_without. now apply transition_calls_plain.
  - assert (Hne : open (world (initial o)) <> true) by (cbn; congruence).
    pose proof (makeTransition_stale true (initial o) Hne) as H1.
    rewrite (sync_bind_done _ _ _ _ _ _ _ H1). cbn [sync settle].
    destruct (drive_idle sched (note (Called ObservedStale) (initial o)) eq_refl) as [Hlog _].
    rewrite Hlog. repeat split. discriminate.
Qed.

Lemma open_transition_order_witness :
  exists rest,
    log (drive [Wake 1 false; Wake 0 false; Wake 0 false]
           (spawn (makeTransition true ;; Ret tt) (initial sample))) =
      [Called (TransitionStart 0); Called (WriteElOpen 0 true);
       Called (DispatchEvent OnRoot BeforetoggleOpenEvent);
       Called (TransitionStart 1); Called (WriteElOpen 1 true)] ++ rest
    /\ forallb (fun e => negb (is_start_entry e)) rest = true.
Proof.
  exact (proj2 (proj2 (proj2 (proj2
           (open_transition_order sample [Wake 1 false; Wake 0 false; Wake 0 false]))))
           eq_refl).
Defined.

(** ** Focus phase *)

(** C7: the focus phase does nothing at all when [receivesFocus] is 'false'
    or the overlay is a 'hint'; and on a close transition whose target still
    matches live [open] after the two frames, the trigger is focused only if
    it is a real element and the active element lies inside the overlay. *)
Theorem applyFocus_guards :
  forall (targetOpenState : bool) (focusEl : option Node) (o o1 o2 : Overlay)
         (b1 b2 : bool),
    let c := drive [Becomes o1; Wake 0 b1; Becomes o2; Wake 0 b2]
               (spawn (applyFocus targetOpenState focusEl) (initial o)) in
    ((receivesFocus o = rf_false \/ type o = hint) -> log c = [] /\ pool c = [])
    /\ (targetOpenState = false -> open o2 = false ->
        forall n, In (Called (FocusTrigger n)) (log c) ->
          triggerElement o2 = Some (HTMLElement n)
          /\ contains_activeElement o2 = true).
Proof.
  intros t fe o o1 o2 b1 b2 c. subst c.
  destruct o as [op dl rf ty tr ic els m1 m2 ca].
  destruct o2 as [op2 dl2 rf2 ty2 tr2 ic2 els2 m12 m22 ca2].
  cbn [receivesFocus type open triggerElement contains_activeElement].
  split.
  - intros [H|H]; subst; [destruct ty | destruct rf]; vm_compute; split; reflexivity.
  - intros Ht Hop n. subst t op2.
    destruct rf, ty, tr2 as [[m|]|], ca2; vm_compute; intros Hin; in_log;
      split; reflexivity.
Qed.

Lemma applyFocus_guards_witness :
  log (drive [Becomes hint_sample; Wake 0 false; Becomes hint_sample; Wake 0 false]
         (spawn (applyFocus true (Some 7)) (initial hint_sample))) = []
  /\ (forall n,
        In (Called (FocusTrigger n))
          (log (drive [Becomes closed_sample; Wake 0 false; Becomes closed_sample; Wake 0 false]
                  (spawn (applyFocus false None) (initial closed_sample)))) ->
        triggerElement closed_sample = Some (HTMLElement n)
        /\ contains_activeElement closed_sample = true).
Proof.
  split.
  - exact (proj1 (proj1 (applyFocus_guards true (Some 7) hint_sample hint_sample hint_sample
                           false false) (or_intror eq_refl))).
  - exact (proj2 (applyFocus_guards false None closed_sample closed_sample closed_sample
                    false false) eq_refl eq_refl).
Defined.

(** ** Staleness *)

(** C1, counterexample.  Focus phase: in the run [stale_focus_run] the owner
    closes the overlay between the two frames of the focus phase of an
    opening run; after the frames [open] differs from the target and the
    phase still focuses the candidate, node 7.  Transition phase: in the run
    [flicker_run] the completion callback of the second element is called
    while the overlay is closed and does nothing; the owner opens the overlay
    again, and the completion callback of the primary element, called then,
    dispatches the three [sp-opened] events of the same phase.  So neither
    the focus phase nor the transition phase as a whole is quiet once one of
    its comparisons has found [open] different from the target. *)
Lemma acts_after_stale_finding :
  (open (world stale_focus_run) = false
   /\ after_stale (calls (log stale_focus_run)) = [FocusNode 7])
  /\ ~ (forall (t : bool) (fe : option Node) (o o1 o2 : Overlay) (b1 b2 : bool),
          open o2 <> t ->
          effects (log (drive [Becomes o1; Wake 0 b1; Becomes o2; Wake 0 b2]
                          (spawn (applyFocus t fe) (initial o)))) = [])
  /\ log flicker_run =
       [Called (TransitionStart 0); Called (WriteElOpen 0 true);
        Called (DispatchEvent OnRoot BeforetoggleOpenEvent);
        Called (TransitionStart 1); Called (WriteElOpen 1 true);
        Resumed (Transitionend 1); Called ObservedStale;
        Resumed (Transitionend 0);
        Called (MatchesQuery ":popover-open"); Called (MatchesQuery ":open");
        Awaiting Frame; Resumed Frame;
        Called (DispatchEvent OnRoot (Event "sp-opened" false false));
        Called (DispatchEvent (OnElement 0) (Event "sp-opened" false false));
        Called (DispatchEvent (OnTrigger 1) (CustomEvent "sp-opened" true true auto))]
  /\ ~ (forall (o : Overlay) (pre post : list Stimulus) (b : bool),
          let c := drive pre (spawn (makeTransition true ;; Ret tt) (initial o)) in
          open (world c) = false ->
          map fst (pool c) = [Transitionend 0; Transitionend 1] ->
          effects (log (drive (Wake 1 b :: post) c)) = effects (log c)).
Proof.
  split; [split; reflexivity|]. split; [|split; [reflexivity|]].
  - intros H.
    assert (Hs : open closed_sample <> true) by discriminate.
    specialize (H true (Some 7) sample sample closed_sample false false Hs).
    vm_compute in H. discriminate.
  - intros H.
    specialize (H sample [Owner (with_open false)]
                  [Owner (with_open true); Wake 0 false; Wake 0 false] false
                  eq_refl eq_refl).
    vm_compute in H. discriminate.
Qed.

(** C1, amended: what each phase does from the comparison that finds [open]
    different from the target, in terms of the overlay as it is at that
    comparison and whatever the owner does before and after it.
    - Delay phase (comparison on entry): nothing observable, under every
      schedule.
    - DOM-attach phase (comparison after the first frame): nothing
      observable; the phase returns after its second frame.
    - Transition phase, synchronous part (comparison on entry): it returns
      null with nothing observable done and no callback registered.
    - A completion callback (comparison when the waiter calls it): nothing
      observable, nothing left waiting, under every schedule.
    - The report-change step on the hide path (comparison when the platform
      confirms the hide): nothing observable beyond what the callback had
      done before, nothing left waiting.
    - Focus phase (comparison after the two frames): the trigger is not
      focused; the focus candidate, if there is one, still is, and that is
      the only observable thing the phase does. *)
Theorem stale_phases_are_quiet :
  forall (t : bool) (fe : option Node) (index : nat) (o o1 o2 : Overlay)
         (b1 b2 : bool) (sched : list Stimulus),
    (open o <> t ->
       let c := drive sched (spawn (manageDelay t) (initial o)) in
       effects (log c) = [] /\ pool c = [])
    /\ (open o1 <> t ->
        let c := drive (Becomes o1 :: Wake 0 b1 :: Becomes o2 :: Wake 0 b2 :: sched)
                   (spawn (ensureOnDOM t) (initial o)) in
        effects (log c) = [] /\ pool c = [])
    /\ (open o <> t ->
        let r := sync (makeTransition t) (initial o) in
        fst r = Done None /\ effects (log (snd r)) = [] /\ pool (snd r) = [])
    /\ (open o <> t ->
        let c := drive sched (spawn (finish t index) (initial o)) in
        effects (log c) = [] /\ pool c = [])
    /\ (open o = t -> hides_first t o = true -> open o1 <> t ->
        let called := spawn (finish t 0) (initial o) in
        let c := drive (Becomes o1 :: Wake 0 b1 :: sched) called in
        effects (log called) = [HidePopover]
        /\ effects (log c) = effects (log called) /\ pool c = [])
    /\ (open o2 <> t ->
        let c := drive (Becomes o1 :: Wake 0 b1 :: Becomes o2 :: Wake 0 b2 :: sched)
                   (spawn (applyFocus t fe) (initial o)) in
        pool c = []
        /\ (forall n, ~ In (Called (FocusTrigger n)) (log c))
        /\ effects (log c) =
           if focus_disabled o then []
           else match fe with
                | Some n => [FocusNode n]
                | None => []
                end).
Proof.
  intros t fe index o o1 o2 b1 b2 sched.
  split; [|split; [|split; [|split; [|split]]]].
  - intros Hs c. subst c.
    assert (Hp : pool (spawn (manageDelay t) (initial o)) = []
                 /\ effects (log (spawn (manageDelay t) (initial o))) = []).
    { destruct o as [op dl rf ty tr ic els m1 m2 ca].
      destruct t, op; cbn in Hs; try (exfalso; apply Hs; reflexivity);
        split; reflexivity. }
    destruct Hp as [Hp He].
    destruct (drive_idle sched _ Hp) as [Hl Hq]. rewrite Hl. now split.
  - intros Hs c. subst c.
    change (drive (Becomes o1 :: Wake 0 b1 :: Becomes o2 :: Wake 0 b2 :: sched)
              (spawn (ensureOnDOM t) (initial o)))
      with (drive sched (drive [Becomes o1; Wake 0 b1; Becomes o2; Wake 0 b2]
                           (spawn (ensureOnDOM t) (initial o)))).
    assert (Hp : pool (drive [Becomes o1; Wake 0 b1; Becomes o2; Wake 0 b2]
                         (spawn (ensureOnDOM t) (initial o))) = []
                 /\ effects (log (drive [Becomes o1; Wake 0 b1; Becomes o2; Wake 0 b2]
                                    (spawn (ensureOnDOM t) (initial o)))) = []).
    { destruct o1 as [op1 dl1 rf1 ty1 tr1 ic1 els1 [[|]|] [[|]|] ca1];
        destruct t, op1, ic1; cbn in Hs; try (exfalso; apply Hs; reflexivity);
        split; reflexivity. }
    destruct Hp as [Hp He].
    destruct (drive_idle sched _ Hp) as [Hl Hq]. rewrite Hl. now split.
  - intros Hs r. subst r. rewrite makeTransition_stale by exact Hs.
    repeat split.
  - intros Hs c. subst c.
    assert (Hp : pool (spawn (finish t index) (initial o)) = []
                 /\ effects (log (spawn (finish t index) (initial o))) = []).
    { destruct o as [op dl rf ty tr ic els m1 m2 ca].
      destruct t, op; cbn in Hs; try (exfalso; apply Hs; reflexivity);
        split; reflexivity. }
    destruct Hp as [Hp He].
    destruct (drive_idle sched _ Hp) as [Hl Hq]. rewrite Hl. now split.
  - intros Ht Hh Hs called c. subst c called.
    change (drive (Becomes o1 :: Wake 0 b1 :: sched) (spawn (finish t 0) (initial o)))
      with (drive sched (drive [Becomes o1; Wake 0 b1] (spawn (finish t 0) (initial o)))).
    assert (Hp : effects (log (spawn (finish t 0) (initial o))) = [HidePopover]
                 /\ pool (drive [Becomes o1; Wake 0 b1]
                            (spawn (finish t 0) (initial o))) = []
                 /\ effects (log (drive [Becomes o1; Wake 0 b1]
                                    (spawn (finish t 0) (initial o)))) = [HidePopover]).
    { destruct o as [op dl rf ty tr ic els [[|]|] [[|]|] ca]; cbn in Ht; subst t;
        destruct o1 as [op1 dl1 rf1 ty1 tr1 ic1 els1 m11 m21 ca1];
        destruct op, ic, op1; cbn in Hs, Hh;
        try discriminate Hh; try (exfalso; apply Hs; reflexivity);
        repeat split; reflexivity. }
    destruct Hp as [Hc [Hp He]].
    destruct (drive_idle sched _ Hp) as [Hl Hq]. rewrite Hl, Hc. now repeat split.
  - intros Hs c. subst c.
    change (drive (Becomes o1 :: Wake 0 b1 :: Becomes o2 :: Wake 0 b2 :: sched)
              (spawn (applyFocus t fe) (initial o)))
      with (drive sched (drive [Becomes o1; Wake 0 b1; Becomes o2; Wake 0 b2]
                           (spawn (applyFocus t fe) (initial o)))).
    assert (Hp : pool (drive [Becomes o1; Wake 0 b1; Becomes o2; Wake 0 b2]
                         (spawn (applyFocus t fe) (initial o))) = []
                 /\ (forall n, ~ In (Called (FocusTrigger n))
                                 (log (drive [Becomes o1; Wake 0 b1; Becomes o2; Wake 0 b2]
                                         (spawn (applyFocus t fe) (initial o)))))
                 /\ effects (log (drive [Becomes o1; Wake 0 b1; Becomes o2; Wake 0 b2]
                                    (spawn (applyFocus t fe) (initial o)))) =
                    if focus_disabled o then []
                    else match fe with
                         | Some n => [FocusNode n]
                         | None => []
                         end).
    { destruct o as [op dl rf ty tr ic els m1 m2 ca];
        destruct o2 as [op2 dl2 rf2 ty2 tr2 ic2 els2 m12 m22 ca2];
        destruct rf, ty, t, op2, fe as [m|]; cbn in Hs;
        try (exfalso; apply Hs; reflexivity);
        (split; [reflexivity|split; [|reflexivity]]);
        intros n Hin; vm_compute in Hin; in_log. }
    destruct Hp as [Hp [Hn He]].
    destruct (drive_idle sched _ Hp) as [Hl Hq]. rewrite Hl. now repeat split.
Qed.

Lemma stale_phases_are_quiet_witness :
  effects (log (spawn (manageDelay true) (initial closed_sample))) = []
  /\ effects (log (drive [Becomes closed_sample; Wake 0 false; Becomes sample; Wake 0 false]
                     (spawn (ensureOnDOM true) (initial sample)))) = []
  /\ pool (snd (sync (makeTransition true) (initial closed_sample))) = []
  /\ effects (log (drive [Wake 0 false] (spawn (finish true 1) (initial closed_sample)))) = []
  /\ effects (log (drive [Becomes sample; Wake 0 false; Wake 0 false]
                     (spawn (finish false 0) (initial presented_sample)))) = [HidePopover]
  /\ effects (log (drive [Becomes sample; Wake 0 false; Becomes closed_sample; Wake 0 false]
                     (spawn (applyFocus true (Some 7)) (initial sample)))) = [FocusNode 7].
Proof.
  assert (Hc : open closed_sample <> true) by discriminate.
  assert (Ho : open sample <> false) by discriminate.
  split; [|split; [|split; [|split; [|split]]]].
  - exact (proj1 (proj1 (stale_phases_are_quiet true None 0 closed_sample sample sample
                           false false []) Hc)).
  - exact (proj1 (proj1 (proj2 (stale_phases_are_quiet true None 0 sample closed_sample
                                  sample false false [])) Hc)).
  - exact (proj2 (proj2 (proj1 (proj2 (proj2
             (stale_phases_are_quiet true None 0 closed_sample sample sample
                false false []))) Hc))).
  - exact (proj1 (proj1 (proj2 (proj2 (proj2
             (stale_phases_are_quiet true None 1 closed_sample sample sample
                false false [Wake 0 false])))) Hc)).
  - pose proof (proj1 (proj2 (proj2 (proj2 (proj2
             (stale_phases_are_quiet false None 0 presented_sample sample sample
                false false [Wake 0 false])))))
             eq_refl eq_refl Ho) as H.
    cbv zeta in H. destruct H as [H1 [H2 _]]. rewrite H2. exact H1.
  - pose proof (proj2 (proj2 (proj2 (proj2 (proj2
             (stale_phases_are_quiet true (Some 7) 0 sample sample closed_sample
                false false [])))))
             Hc) as H.
    cbv zeta in H. exact (proj2 (proj2 H)).
Defined.

(** ** Who writes [open] *)

Ltac avoid_step :=
  first
    [ exact I
    | reflexivity
    | progress intros
    | split
    | match goal with
      | |- avoids _ (if ?b then _ else _) => destruct b
      | |- avoids _ (bind (if ?b then _ else _) _) => destruct b
      | |- avoids _ (match ?x with _ => _ end) => destruct x
      | |- avoids _ (bind (match ?x with _ => _ end) _) => destruct x
      end
    | progress cbn [avoids bind]
    | match goal with
      | |- context [if ?b then _ else _] => destruct b
      end ].

Ltac avoid_tac := repeat avoid_step.

Section AvoidsMethods.
Variable bad : Command -> bool.
Hypothesis bad_dispatch : forall tg e, bad (DispatchEvent tg e) = false.
Hypothesis bad_matches : forall s, bad (MatchesQuery s) = false.
Hypothesis bad_hide : bad HidePopover = false.
Hypothesis bad_stale : bad ObservedStale = false.

Lemma reportChange_avoids :
  forall t index name, avoids bad (reportChange t index name).
Proof.
  intros t index name. unfold reportChange, stale, nextFrame, this, call, await.
  avoid_tac; auto.
Qed.

Lemma finish_avoids : forall t index, avoids bad (finish t index).
Proof.
  intros t index. unfold finish, stale, this, call, try_catch, matches, register, detach.
  avoid_tac; auto using reportChange_avoids.
Qed.
End AvoidsMethods.

Lemma scan_slots_avoids :
  forall bad slots, avoids bad (scan_slots slots).
Proof.
  intros bad. induction slots as [|slot rest IH]; cbn; [exact I|].
  intros [n|]; cbn; exact IH.
Qed.

Lemma ensureOnDOM_keeps_open : forall t, avoids is_write_open (ensureOnDOM t).
Proof.
  intros t. unfold ensureOnDOM, stale, nextFrame, this, call, await, try_catch, matches.
  avoid_tac.
Qed.

Lemma applyFocus_keeps_open : forall t fe, avoids is_write_open (applyFocus t fe).
Proof.
  intros t fe. unfold applyFocus, stale, nextFrame, this, call, await.
  avoid_tac.
Qed.

Lemma start_keeps_open : forall t el index, avoids is_write_open (start t el index).
Proof.
  intros t el index. unfold start, call, get_focusEl, set_focusEl.
  avoid_tac; apply scan_slots_avoids.
Qed.

Lemma forEach_keeps_open :
  forall t els i, avoids is_write_open (forEach els i (transition_body t)).
Proof.
  intros t. induction els as [|el rest IH]; intros i; cbn [forEach]; [exact I|].
  apply avoids_bind; [|intros _; apply IH].
  unfold transition_body, guaranteedAllTransitionend, call, register. cbn [bind avoids].
  split; [reflexivity|].
  apply avoids_bind; [apply start_keeps_open|intros _].
  cbn [avoids]. split; [|exact I]. now apply finish_avoids.
Qed.

Lemma makeTransition_keeps_open : forall t, avoids is_write_open (makeTransition t).
Proof.
  intros t. unfold makeTransition.
  change (fun (el : OpenableElement) (index : nat) =>
            guaranteedAllTransitionend index (start t el index) (finish t index))
    with (transition_body t).
  unfold stale, this, call, set_focusEl, get_focusEl.
  cbn [bind avoids]. intros o. destruct (Bool.eqb (open o) t); cbn [bind avoids].
  - intros o'. apply avoids_bind; [apply forEach_keeps_open|].
    intros _. cbn. auto.
  - split; [reflexivity | exact I].
Qed.

Lemma effect_keeps_open :
  forall cmd o, is_write_open cmd = false -> open (effect cmd o) = open o.
Proof. intros [] o H; try reflexivity. discriminate. Qed.

Lemma sync_keeps_open :
  forall (A : Type) (p : proc A) (c : Config),
    avoids is_write_open p -> open (world (snd (sync p c))) = open (world c).
Proof.
  induction p as [A a|A k IH|A cmd k IH|A w k IH|A s k IH
                 |A body IHb handler IHh k IHk|A p IHp k IHk
                 |A w cb IHcb k IHk|A k IH|A v k IH];
    intros c Hp; cbn [sync avoids] in *.
  - reflexivity.
  - now apply IH.
  - destruct Hp as [Hc Hk]. rewrite (IH _ Hk). cbn. now apply effect_keeps_open.
  - reflexivity.
  - destruct Hp as [_ Hk].
    destruct (dialogEl_matches (world c) s) as [b|]; [|reflexivity].
    now rewrite (IH b _ (Hk b)).
  - destruct Hp as [Hbody [Hhandler Hk]].
    pose proof (IHb c Hbody) as H1.
    destruct (sync body c) as [[b| |w kb] c1]; cbn [snd] in *.
    + now rewrite (IHk b c1 (Hk b)).
    + pose proof (IHh c1 Hhandler) as H2.
      destruct (sync handler c1) as [[b| |w kh] c2]; cbn [snd] in *;
        try congruence.
      rewrite (IHk b c2 (Hk b)). congruence.
    + exact H1.
  - destruct Hp as [Hp Hk].
    pose proof (IHp c Hp) as H1.
    destruct (sync p c) as [[u| |w kp] c1]; cbn [snd] in *;
      rewrite (IHk _ Hk); exact H1.
  - destruct Hp as [_ Hk]. now rewrite (IHk _ Hk).
  - now apply IH.
  - now rewrite (IH _ Hp).
Qed.

Lemma spawn_keeps_open :
  forall p c, avoids is_write_open p -> open (world (spawn p c)) = open (world c).
Proof.
  intros p c Hp. unfold spawn. pose proof (sync_keeps_open _ p c Hp) as H.
  destruct (sync p c) as [[u| |w k] c1]; exact H.
Qed.

Lemma drive_keeps_open :
  forall sched c,
    config_avoids is_write_open c ->
    Forall (fun s => is_owner s = false) sched ->
    open (world (drive sched c)) = open (world c).
Proof.
  induction sched as [|s sched IH]; intros c Hc Hs; cbn [drive]; [reflexivity|].
  inversion Hs as [|s' sched' Hhead Htail]; subst.
  rewrite IH; [|now apply react_avoids|exact Htail].
  destruct s as [f|i b]; [discriminate|]. cbn [react]. unfold wake.
  destruct (take_nth i (pool c)) as [[[w k] rest]|] eqn:E; [|reflexivity].
  destruct (take_nth_In _ _ _ _ _ E) as [Hin _]. destruct Hc as [_ Hp].
  rewrite Forall_forall in Hp. rewrite spawn_keeps_open; [reflexivity|].
  apply (Hp _ Hin).
Qed.

(** A procedure that never writes [open]: under every schedule no write of
    [open] is logged, and if the owner stays away [open] keeps its value. *)
Lemma run_keeps_open :
  forall p o sched,
    avoids is_write_open p ->
    (forall b, ~ In (Called (WriteOpen b)) (log (drive sched (spawn p (initial o)))))
    /\ (Forall (fun s => is_owner s = false) sched ->
        open (world (drive sched (spawn p (initial o)))) = open o).
Proof.
  intros p o sched Hp. split.
  - intros b Hin. pose proof (run_avoids is_write_open p o sched _ Hp Hin) as H.
    discriminate.
  - intros Hs. rewrite drive_keeps_open; [|apply spawn_avoids|exact Hs].
    + now rewrite spawn_keeps_open.
    + exact Hp.
    + split; constructor.
Qed.

(** C9: under every schedule the DOM-attach phase, the transition phase with
    all its callbacks, and the focus phase never write the controller's
    [open] (the transition phase writes [el.open] only), and leave its value
    alone when the owner does; the delay phase does write it. *)
Theorem only_delay_writes_open :
  forall (t : bool) (fe : option Node) (o : Overlay) (sched : list Stimulus),
    let attach := drive sched (spawn (ensureOnDOM t) (initial o)) in
    let transition := drive sched (spawn (makeTransition t ;; Ret tt) (initial o)) in
    let focus := drive sched (spawn (applyFocus t fe) (initial o)) in
    (forall b, ~ In (Called (WriteOpen b)) (log attach))
    /\ (forall b, ~ In (Called (WriteOpen b)) (log transition))
    /\ (forall b, ~ In (Called (WriteOpen b)) (log focus))
    /\ (Forall (fun s => is_owner s = false) sched ->
        open (world attach) = open o
        /\ open (world transition) = open o
        /\ open (world focus) = open o)
    /\ In (Called (WriteOpen false))
         (log (drive [Wake 0 true] (spawn (manageDelay true) (initial delayed_sample)))).
Proof.
  intros t fe o sched attach transition focus.
  destruct (run_keeps_open _ o sched (ensureOnDOM_keeps_open t)) as [A1 A2].
  assert (Ht : avoids is_write_open (makeTransition t ;; Ret tt)).
  { apply avoids_bind; [apply makeTransition_keeps_open | intros _; exact I]. }
  destruct (run_keeps_open _ o sched Ht) as [T1 T2].
  destruct (run_keeps_open _ o sched (applyFocus_keeps_open t fe)) as [F1 F2].
  repeat split; auto.
  vm_compute. auto.
Qed.

Lemma only_delay_writes_open_witness :
  open (world (drive [Wake 0 false; Wake 0 false]
                 (spawn (makeTransition true ;; Ret tt) (initial sample)))) = true.
Proof.
  assert (Hs : Forall (fun s => is_owner s = false) [Wake 0 false; Wake 0 false])
    by (repeat constructor).
  exact (proj1 (proj2 (proj1 (proj2 (proj2 (proj2
           (only_delay_writes_open true None sample [Wake 0 false; Wake 0 false]))))
           Hs))).
Defined.

(** ** Transition phase: focus candidate, open flags, before-toggle event *)

Lemma keep_or_app :
  forall v l1 l2, keep_or (keep_or v l1) l2 = keep_or v (l1 ++ l2).
Proof.
  intros [n|] l1 l2; [reflexivity|]. cbn.
  induction l1 as [|[m|] l1 IH]; cbn; auto.
Qed.

Lemma scan_slots_focusEl :
  forall slots c,
    focusEl (snd (sync (scan_slots slots) c)) = keep_or (focusEl c) slots.
Proof.
  induction slots as [|slot rest IH]; intros c; cbn [scan_slots].
  - cbn. now destruct (focusEl c).
  - cbn [bind get_focusEl sync]. destruct (focusEl c) as [n|] eqn:E;
      cbn [bind set_focusEl sync].
    + rewrite IH, E. reflexivity.
    + rewrite IH. cbn. now destruct slot.
Qed.

(** One element of the [forEach]: the shared variable and the overlay
    after its start callback. *)
Lemma transition_element_state :
  forall t el i c,
    let c' := snd (sync (transition_body t el i) c) in
    focusEl c' = (if t then keep_or (focusEl c) (candidates el) else focusEl c)
    /\ world c' =
       match el_open el with
       | Some _ => with_elements (update_nth i (set_el_open t) (elements (world c))) (world c)
       | None => world c
       end.
Proof.
  intros t el i c c'. subst c'. unfold transition_body.
  destruct c as [w fe l pl]. destruct el as [[b|] ff slots].
  all: destruct i, t, fe, ff; cbn -[finish].
  all: try (split; reflexivity).
  all: match goal with
       | |- context [sync (bind (scan_slots ?s) ?q) ?c0] =>
           destruct (scan_slots_span s c0) as [c1 [H1 [H2 [H3 H4]]]];
           rewrite (sync_bind_done _ (scan_slots s) _ q c0 c1 tt H1);
           pose proof (scan_slots_focusEl s c0) as H5; rewrite H1 in H5
       end.
  all: cbn -[finish] in *; split; [exact H5 | exact H4].
Qed.

Lemma update_nth_app :
  forall (X : Type) (f : X -> X) (pre : list X) (x : X) (rest : list X),
    update_nth (List.length pre) f (pre ++ x :: rest) = pre ++ f x :: rest.
Proof.
  intros X f. induction pre as [|y pre IH]; intros x rest; cbn; [reflexivity|].
  now rewrite IH.
Qed.

Lemma forEach_state :
  forall t els i c pre,
    elements (world c) = pre ++ els ->
    List.length pre = i ->
    let c' := snd (sync (forEach els i (transition_body t)) c) in
    focusEl c' = (if t then keep_or (focusEl c) (flat_map candidates els) else focusEl c)
    /\ world c' = with_elements (pre ++ map (mark_open t) els) (world c).
Proof.
  intros t. induction els as [|el rest IH]; intros i c pre Hels Hlen c'; subst c'.
  - cbn. rewrite app_nil_r in *. rewrite <- Hels. split.
    + destruct t; [now destruct (focusEl c) | reflexivity].
    + now destruct (world c).
  - cbn [forEach].
    destruct (transition_element_span t el i c) as [c1 [H1 _]].
    change (guaranteedAllTransitionend i (start t el i) (finish t i))
      with (transition_body t el i) in H1.
    rewrite (sync_bind_done _ _ _ _ _ _ _ H1).
    destruct (transition_element_state t el i c) as [F1 W1].
    rewrite H1 in F1, W1. cbn [snd] in F1, W1.
    assert (Hels1 : elements (world c1) = (pre ++ [mark_open t el]) ++ rest).
    { rewrite W1, <- app_assoc. cbn [app]. unfold mark_open.
      destruct (el_open el).
      - cbn [elements with_elements]. rewrite Hels, <- Hlen. apply update_nth_app.
      - exact Hels. }
    assert (Hlen1 : List.length (pre ++ [mark_open t el]) = S i).
    { rewrite length_app. cbn. rewrite Hlen. now rewrite Nat.add_1_r. }
    destruct (IH (S i) c1 (pre ++ [mark_open t el]) Hels1 Hlen1) as [F2 W2].
    split.
    + rewrite F2, F1. destruct t; [|reflexivity].
      cbn [flat_map]. apply keep_or_app.
    + rewrite W2, <- app_assoc. cbn [app map]. rewrite W1.
      destruct (el_open el); reflexivity.
Qed.

Lemma makeTransition_state :
  forall t c, open (world c) = t ->
    fst (sync (makeTransition t) c)
      = Done (if t then first_candidate (elements (world c)) else None)
    /\ world (snd (sync (makeTransition t) c))
      = with_elements (map (mark_open t) (elements (world c))) (world c).
Proof.
  intros t c Ht. unfold makeTransition.
  change (fun (el : OpenableElement) (index : nat) =>
            guaranteedAllTransitionend index (start t el index) (finish t index))
    with (transition_body t).
  destruct c as [w fe l pl]. cbn [world] in *.
  cbn -[forEach transition_body]. rewrite Ht, Bool.eqb_reflx. cbn -[forEach transition_body].
  set (c0 := set_focus_var None {| world := w; focusEl := fe; log := l; pool := pl |}).
  destruct (forEach_span t (elements w) 0 c0) as [c1 [H1 _]].
  rewrite (sync_bind_done _ _ _ _ _ _ _ H1). cbn [get_focusEl sync fst snd].
  destruct (forEach_state t (elements w) 0 c0 [] eq_refl eq_refl) as [F W].
  rewrite H1 in F, W. cbn [snd] in F, W. split.
  - rewrite F. destruct t; reflexivity.
  - exact W.
Qed.

(** X1: the transition phase hands to the focus phase the first focus
    candidate of the elements, in the order the start callbacks look: each
    element's first focusable descendant, then its slots, element after
    element; a candidate found is never replaced.  A closing transition and a
    stale one hand over none. *)
Theorem makeTransition_focus_candidate :
  forall (t : bool) (c : Config),
    fst (sync (makeTransition t) c)
    = Done (if Bool.eqb (open (world c)) t && t
            then first_candidate (elements (world c))
            else None).
Proof.
  intros t c. destruct (Bool.eqb (open (world c)) t) eqn:E.
  - apply Bool.eqb_prop in E. rewrite (proj1 (makeTransition_state t c E)).
    now destruct t.
  - rewrite makeTransition_stale; [reflexivity|].
    intros H. rewrite H, Bool.eqb_reflx in E. discriminate.
Qed.

(** X2: the synchronous part of the transition phase sets the open flag of
    every element that has one to the target, leaves elements without an open
    flag as they are, and changes nothing else of the overlay; a stale run
    changes nothing. *)
Theorem makeTransition_marks_elements :
  forall (t : bool) (c : Config),
    world (snd (sync (makeTransition t) c))
    = if Bool.eqb (open (world c)) t
      then with_elements (map (mark_open t) (elements (world c))) (world c)
      else world c.
Proof.
  intros t c. destruct (Bool.eqb (open (world c)) t) eqn:E.
  - apply Bool.eqb_prop in E. exact (proj2 (makeTransition_state t c E)).
  - rewrite makeTransition_stale; [reflexivity|].
    intros H. rewrite H, Bool.eqb_reflx in E. discriminate.
Qed.

Lemma dispatched_app :
  forall l1 l2, dispatched (l1 ++ l2) = dispatched l1 ++ dispatched l2.
Proof. intros. unfold dispatched. apply flat_map_app. Qed.

Lemma dispatched_transition_calls :
  forall t els i,
    dispatched (map Called (transition_calls t els i))
    = match els, i with
      | _ :: _, O => [(OnRoot, beforetoggle_event t)]
      | _, _ => []
      end.
Proof.
  intros t. induction els as [|el rest IH]; intros i; [reflexivity|].
  cbn [transition_calls]. rewrite map_app, dispatched_app, IH.
  unfold start_calls. destruct rest, i, (el_open el), t; reflexivity.
Qed.

(** X3: the synchronous part of the transition phase dispatches exactly one
    event, the before-toggle event of the target's kind on the root, and none
    at all when the overlay has no element or the run is stale. *)
Theorem makeTransition_one_beforetoggle :
  forall (t : bool) (o : Overlay),
    dispatched (log (snd (sync (makeTransition t) (initial o))))
    = if Bool.eqb (open o) t
      then match elements o with
           | [] => []
           | _ :: _ => [(OnRoot, beforetoggle_event t)]
           end
      else [].
Proof.
  intros t o. destruct (Bool.eqb (open o) t) eqn:E.
  - apply Bool.eqb_prop in E.
    destruct (makeTransition_span t (initial o) E) as [v [c' [H1 [H2 _]]]].
    rewrite H1. cbn [snd]. rewrite H2. cbn [initial log world app].
    rewrite dispatched_transition_calls. now destruct (elements o).
  - rewrite makeTransition_stale; [reflexivity|].
    cbn. intros H. rewrite H, Bool.eqb_reflx in E. discriminate.
Qed.

(** X4: an overlay without elements: the transition phase starts nothing,
    leaves nothing waiting and, whatever happens later, dispatches no event:
    neither a before-toggle event nor [sp-opened] or [sp-closed]. *)
Theorem makeTransition_without_elements :
  forall (t : bool) (o : Overlay) (sched : list Stimulus),
    elements o = [] ->
    let c := drive sched (spawn (makeTransition t ;; Ret tt) (initial o)) in
    pool c = [] /\ dispatched (log c) = [] /\ effects (log c) = [].
Proof.
  intros t o sched Hels c. subst c. unfold spawn.
  destruct (Bool.eqb (open o) t) eqn:E.
  - apply Bool.eqb_prop in E.
    destruct (makeTransition_span t (initial o) E) as [v [c' [H1 [H2 [H3 _]]]]].
    rewrite (sync_bind_done _ _ _ _ _ _ _ H1). cbn [sync settle].
    cbn [initial log pool world app] in H2, H3. rewrite Hels in H2, H3.
    cbn in H2, H3.
    destruct (drive_idle sched c' H3) as [Hl Hp].
    rewrite Hl, Hp, H2. repeat split.
  - assert (Hne : open (world (initial o)) <> t).
    { cbn. intros H. rewrite H, Bool.eqb_reflx in E. discriminate. }
    pose proof (makeTransition_stale t (initial o) Hne) as H1.
    rewrite (sync_bind_done _ _ _ _ _ _ _ H1). cbn [sync settle].
    destruct (drive_idle sched (note (Called ObservedStale) (initial o)) eq_refl) as [Hl Hp].
    rewrite Hl, Hp. repeat split.
Qed.

Lemma makeTransition_without_elements_witness :
  dispatched
    (log (drive [Wake 0 false; Wake 0 false]
            (spawn (makeTransition true ;; Ret tt)
               (initial (with_elements [] sample))))) = [].
Proof.
  exact (proj1 (proj2 (makeTransition_without_elements true (with_elements [] sample)
                         [Wake 0 false; Wake 0 false] eq_refl))).
Defined.

(** ** Completion callback of the other elements *)

(** X5: the completion callback of an element other than the primary one, for
    a run that is still current, dispatches one event and nothing else: a
    non-bubbling, non-composed [CustomEvent] on that element carrying the
    overlay's type; it makes no probe, hides nothing, dispatches nothing on
    the root or the trigger and leaves nothing waiting. *)
Theorem finish_of_secondary_element :
  forall (t : bool) (i : nat) (o : Overlay) (sched : list Stimulus),
    open o = t ->
    let c := drive sched (spawn (finish t (S i)) (initial o)) in
    log c = [Called (DispatchEvent (OnElement (S i))
                       (CustomEvent (report_name t) false false (type o)))]
    /\ pool c = [].
Proof.
  intros t i o sched Ht c. subst c.
  destruct o as [op dl rf ty tr ic els m1 m2 ca]. cbn in Ht. subst t. cbn [type].
  assert (Hp : pool (spawn (finish op (S i))
                       (initial (Build_Overlay op dl rf ty tr ic els m1 m2 ca))) = [])
    by (destruct op; reflexivity).
  destruct (drive_idle sched _ Hp) as [Hl Hq]. rewrite Hl, Hq.
  split; [|reflexivity]. destruct op; reflexivity.
Qed.

Lemma finish_of_secondary_element_witness :
  log (drive [Wake 0 false] (spawn (finish true 1) (initial sample)))
  = [Called (DispatchEvent (OnElement 1) (CustomEvent "sp-opened" false false auto))].
Proof.
  exact (proj1 (finish_of_secondary_element true 0 sample [Wake 0 false] eq_refl)).
Defined.

(** ** Delay phase: the open timer *)

(** X7: the delay phase starts the open timer exactly when the target is
    open, [open] still equals it and the overlay is delayed; a close, a stale
    open and an undelayed open never start it. *)
Theorem manageDelay_starts_timer_iff :
  forall (t : bool) (o : Overlay),
    In (Awaiting OpenTimer) (log (spawn (manageDelay t) (initial o)))
    <-> (t = true /\ open o = true /\ delayed o = true).
Proof.
  intros t o. destruct o as [op dl rf ty tr ic els m1 m2 ca].
  destruct t, op, dl; vm_compute; split; intros H; in_log; auto;
    try (destruct H as [H1 [H2 H3]]; discriminate).
Qed.

(** X8: when the open timer elapses without being cancelled the delay phase
    writes nothing: the overlay is as the owner left it.  When its caller is
    resumed, the pipeline goes on to the DOM-attach phase if [open] is true
    then and ends, with nothing dispatched, if the owner has closed the
    overlay meanwhile. *)
Theorem manageDelay_elapsed :
  forall (o o1 o2 : Overlay) (b : bool),
    open o = true -> delayed o = true ->
    let c := drive [Becomes o1; Wake 0 false] (spawn (manageDelay true) (initial o)) in
    let returned := drive [Becomes o1; Wake 0 false] (spawn managePopoverOpen (initial o)) in
    let run := drive [Becomes o2; Wake 0 b] returned in
    world c = o1 /\ pool c = [] /\ calls (log c) = []
    /\ world returned = o1
    /\ log returned = [Awaiting OpenTimer; Resumed OpenTimer; Awaiting Microtask]
    /\ world run = o2
    /\ (open o2 = true ->
        log run = [Awaiting OpenTimer; Resumed OpenTimer;
                   Awaiting Microtask; Resumed Microtask; Awaiting Frame])
    /\ (open o2 = false ->
        log run = [Awaiting OpenTimer; Resumed OpenTimer;
                   Awaiting Microtask; Resumed Microtask; Called ObservedStale]
        /\ pool run = []).
Proof.
  intros o o1 o2 b Hop Hdl c returned run. subst c run returned.
  destruct o as [op dl rf ty tr ic els m1 m2 ca]. cbn in Hop, Hdl. subst op dl.
  destruct o2 as [op2 dl2 rf2 ty2 tr2 ic2 els2 m12 m22 ca2].
  destruct op2; repeat split; intros; try discriminate; reflexivity.
Qed.

Lemma manageDelay_elapsed_witness :
  log (drive [Becomes delayed_sample; Wake 0 false]
         (drive [Becomes delayed_sample; Wake 0 false]
            (spawn managePopoverOpen (initial delayed_sample))))
  = [Awaiting OpenTimer; Resumed OpenTimer;
     Awaiting Microtask; Resumed Microtask; Awaiting Frame].
Proof.
  exact (proj1 (proj2 (proj2 (proj2 (proj2 (proj2 (proj2
           (manageDelay_elapsed delayed_sample delayed_sample delayed_sample false
              eq_refl eq_refl)))))))
           eq_refl).
Defined.

(** ** Pipeline: a run that goes stale during the DOM-attach phase *)

(** X9: a run that has passed the checkpoint after the delay phase and finds
    [open] different from its snapshot when the caller of the DOM-attach
    phase is resumed ends at the checkpoint after that phase: no start
    callback runs, no open flag of an element is written, no event is
    dispatched and nothing is left waiting.  All the run has done is the
    write of the delay phase, if it had started the open timer and the timer
    was cancelled, and the showPopover of the attach phase, if its conditions
    held after the first frame.  The overlay is [oa] when the timer
    resolves, [om] when the caller of the delay phase is resumed, [o1] to
    [o4] at the suspensions that follow. *)
Theorem stale_after_attach :
  forall (o oa om o1 o2 o3 o4 : Overlay) (ba bm b1 b2 b3 b4 : bool),
    let t := open o in
    let timer := if t && delayed o then [Becomes oa; Wake 0 ba] else [] in
    let last := if presents t o1 then o4 else o3 in
    open om = t ->
    open last <> t ->
    let run := drive (timer ++ [Becomes om; Wake 0 bm; Becomes o1; Wake 0 b1;
                                Becomes o2; Wake 0 b2; Becomes o3; Wake 0 b3;
                                Becomes o4; Wake 0 b4])
                 (spawn managePopoverOpen (initial o)) in
    pool run = []
    /\ effects (log run) =
       (if t && delayed o && ba then [WriteOpen false] else [])
       ++ (if presents t o1 then [ShowPopover] else [])
    /\ existsb is_start_entry (log run) = false.
Proof.
  intros o oa om o1 o2 o3 o4 ba bm b1 b2 b3 b4 t timer last Hm Hstale run.
  subst run last timer t.
  destruct o as [op dl rf ty tr ic els m1 m2 ca].
  destruct om as [opm dlm rfm tym trm icm elsm m1m m2m cam].
  cbn [open delayed] in *. subst opm.
  destruct o1 as [op1 dl1 rf1 ty1 tr1 ic1 els1 [[|]|] [[|]|] ca1];
    destruct o3 as [op3 dl3 rf3 ty3 tr3 ic3 els3 m13 m23 ca3];
    destruct o4 as [op4 dl4 rf4 ty4 tr4 ic4 els4 m14 m24 ca4];
    destruct op, op1, ic1, op3, op4;
    cbn in Hstale; try (exfalso; apply Hstale; reflexivity);
    destruct dl, ba; vm_compute; repeat split.
Qed.

Lemma stale_after_attach_witness :
  effects (log (drive ([Becomes delayed_sample; Wake 0 false]
                       ++ [Becomes delayed_sample; Wake 0 false;
                           Becomes delayed_sample; Wake 0 false;
                           Becomes delayed_sample; Wake 0 false;
                           Becomes delayed_sample; Wake 0 false;
                           Becomes closed_sample; Wake 0 false])
                  (spawn managePopoverOpen (initial delayed_sample)))) = [ShowPopover].
Proof.
  assert (H : open closed_sample <> open delayed_sample) by discriminate.
  exact (proj1 (proj2 (stale_after_attach delayed_sample delayed_sample delayed_sample
                         delayed_sample delayed_sample delayed_sample closed_sample
                         false false false false false false eq_refl H))).
Defined.

(** ** Focus phase: the one focus call *)

(** X10: the whole effect of the focus phase is at most one focus call.  It
    is disabled by what [receivesFocus] and [type] were on entry; after the
    two frames, a close target that is still current restores focus to a real
    trigger when the active element is inside the overlay, and does nothing
    otherwise; in every other case the candidate is focused if there is one. *)
Theorem applyFocus_focus_call :
  forall (t : bool) (fe : option Node) (o o1 o2 : Overlay) (b1 b2 : bool),
    let c := drive [Becomes o1; Wake 0 b1; Becomes o2; Wake 0 b2]
               (spawn (applyFocus t fe) (initial o)) in
    pool c = []
    /\ effects (log c) =
       if focus_disabled o then []
       else if Bool.eqb (open o2) t && negb (open o2) then
         match triggerElement o2 with
         | Some (HTMLElement n) =>
             if contains_activeElement o2 then [FocusTrigger n] else []
         | _ => []
         end
       else
         match fe with
         | Some n => [FocusNode n]
         | None => []
         end.
Proof.
  intros t fe o o1 o2 b1 b2 c. subst c.
  destruct o as [op dl rf ty tr ic els m1 m2 ca].
  destruct o2 as [op2 dl2 rf2 ty2 [[n2|]|] ic2 els2 m12 m22 ca2];
    destruct rf, ty, t, op2, ca2, fe as [n|]; split; reflexivity.
Qed.

(** ** Completion callback of the primary element *)

(** X6: the completion callback of the primary element, for a run that is
    current when it is called.  Without a hide it reports after one frame,
    for the overlay as it is then.  On the hide path it calls hidePopover at
    once; when the platform's notification arrives it reports like the other
    path, one frame later, if the run is still current, and gives up, with
    no event dispatched, if the owner has reopened the overlay meanwhile.
    Either way nothing is left waiting. *)
Theorem finish_of_primary_element :
  forall (t : bool) (o o1 o2 : Overlay) (b1 b2 : bool),
    open o = t ->
    let c := drive [Becomes o1; Wake 0 b1; Becomes o2; Wake 0 b2]
               (spawn (finish t 0) (initial o)) in
    pool c = []
    /\ effects (log c) =
       if hides_first t o
       then HidePopover
            :: (if Bool.eqb (open o1) t then report_events (report_name t) o2 else [])
       else report_events (report_name t) o1.
Proof.
  intros t o o1 o2 b1 b2 Ht c. subst c.
  destruct o as [op dl rf ty tr ic els [[|]|] [[|]|] ca]; cbn in Ht; subst t;
    destruct o1 as [op1 dl1 rf1 ty1 [[n1|]|] ic1 els1 m11 m21 ca1];
    destruct o2 as [op2 dl2 rf2 ty2 [[n2|]|] ic2 els2 m12 m22 ca2];
    destruct op, ic, op1; split; reflexivity.
Qed.

Lemma finish_of_primary_element_witness :
  effects (log (drive [Becomes presented_sample; Wake 0 false;
                       Becomes presented_sample; Wake 0 false]
                  (spawn (finish false 0) (initial presented_sample))))
  = [HidePopover;
     DispatchEvent OnRoot (Event "sp-closed" false false);
     DispatchEvent (OnElement 0) (Event "sp-closed" false false);
     DispatchEvent (OnTrigger 1) (CustomEvent "sp-closed" true true auto)].
Proof.
  exact (proj2 (finish_of_primary_element false presented_sample presented_sample
                  presented_sample false false eq_refl)).
Defined.

(** ** What each phase never does *)

Section AvoidsPipeline.
Variable bad : Command -> bool.
Hypothesis bad_stale : bad ObservedStale = false.
Hypothesis bad_start : forall i, bad (TransitionStart i) = false.

Lemma forEach_avoids :
  forall t,
    (forall el i, avoids bad (start t el i)) ->
    (forall i, avoids bad (finish t i)) ->
    forall els i, avoids bad (forEach els i (transition_body t)).
Proof.
  intros t Hstart Hfinish. induction els as [|el rest IH]; intros i; cbn [forEach]; [exact I|].
  apply avoids_bind; [|intros _; apply IH].
  unfold transition_body, guaranteedAllTransitionend, call, register. cbn [bind avoids].
  split; [apply bad_start|].
  apply avoids_bind; [apply Hstart|intros _].
  cbn [avoids]. split; [apply Hfinish | exact I].
Qed.

Lemma makeTransition_avoids :
  forall t,
    (forall el i, avoids bad (start t el i)) ->
    (forall i, avoids bad (finish t i)) ->
    avoids bad (makeTransition t).
Proof.
  intros t Hstart Hfinish. unfold makeTransition.
  change (fun (el : OpenableElement) (index : nat) =>
            guaranteedAllTransitionend index (start t el index) (finish t index))
    with (transition_body t).
  unfold stale, this, call, set_focusEl, get_focusEl.
  cbn [bind avoids]. intros o. destruct (Bool.eqb (open o) t); cbn [bind avoids].
  - intros o'. apply avoids_bind; [now apply forEach_avoids|].
    intros _. cbn. auto.
  - split; [exact bad_stale | exact I].
Qed.

Lemma stale_then_avoids :
  forall t (p : proc unit), avoids bad p ->
    avoids bad (s <- stale t ;; if s then Ret tt else p).
Proof.
  intros t p Hp. unfold stale, this, call. cbn [bind avoids]. intros o.
  destruct (Bool.eqb (open o) t); cbn [bind avoids]; [exact Hp|].
  split; [exact bad_stale | exact I].
Qed.

Lemma awaited_avoids :
  forall (A : Type) (p : proc A), avoids bad p -> avoids bad (awaited p).
Proof.
  intros A p Hp. unfold awaited, await.
  apply avoids_bind; [exact Hp|intros r]. cbn. auto.
Qed.

Lemma pipeline_avoids :
  forall t,
    avoids bad (manageDelay t) ->
    avoids bad (ensureOnDOM t) ->
    avoids bad (makeTransition t) ->
    (forall fe, avoids bad (applyFocus t fe)) ->
    avoids bad (pipeline_from_delay t).
Proof.
  intros t Hd He Ht Hf. unfold pipeline_from_delay.
  apply avoids_bind; [now apply awaited_avoids|intros _].
  apply stale_then_avoids.
  apply avoids_bind; [now apply awaited_avoids|intros _].
  apply stale_then_avoids.
  apply avoids_bind; [now apply awaited_avoids|intros fe].
  apply stale_then_avoids. apply awaited_avoids, Hf.
Qed.
End AvoidsPipeline.

Lemma managePopoverOpen_spawn :
  forall o, spawn managePopoverOpen (initial o) = spawn (pipeline_from_delay (open o)) (initial o).
Proof. intros [op dl rf ty tr ic els m1 m2 ca]. destruct op; reflexivity. Qed.

Lemma opening_never_hides : avoids is_hide_call (pipeline_from_delay true).
Proof.
  apply pipeline_avoids; try reflexivity.
  - unfold manageDelay, stale, this, call, await. avoid_tac.
  - unfold ensureOnDOM, stale, nextFrame, this, call, await, try_catch, matches. avoid_tac.
  - apply makeTransition_avoids; try reflexivity.
    + intros el i. unfold start, call, get_focusEl, set_focusEl.
      avoid_tac; apply scan_slots_avoids.
    + intros i. unfold finish, reportChange, stale, nextFrame, this, call, await,
        try_catch, matches, register, detach.
      avoid_tac.
  - intros fe. unfold applyFocus, stale, nextFrame, this, call, await. avoid_tac.
Qed.

Lemma closing_never_shows : avoids is_show_call (pipeline_from_delay false).
Proof.
  apply pipeline_avoids; try reflexivity.
  - unfold manageDelay, stale, this, call, await. avoid_tac.
  - unfold ensureOnDOM, stale, nextFrame, this, call, await, try_catch, matches. avoid_tac.
  - apply makeTransition_avoids; try reflexivity.
    + intros el i. unfold start, call, get_focusEl, set_focusEl.
      avoid_tac; apply scan_slots_avoids.
    + intros i. unfold finish, reportChange, stale, nextFrame, this, call, await,
        try_catch, matches, register, detach.
      avoid_tac.
  - intros fe. unfold applyFocus, stale, nextFrame, this, call, await. avoid_tac.
Qed.

(** X11: under every schedule, a run of the pipeline started while the overlay
    is open never calls hidePopover, and a run started while it is closed
    never calls showPopover, whatever the owner does to [open] afterwards. *)
Theorem pipeline_never_crosses :
  forall (o : Overlay) (sched : list Stimulus),
    let run := drive sched (spawn managePopoverOpen (initial o)) in
    (open o = true -> ~ In (Called HidePopover) (log run))
    /\ (open o = false -> ~ In (Called ShowPopover) (log run)).
Proof.
  intros o sched run. subst run. rewrite managePopoverOpen_spawn. split.
  - intros Hop Hin. rewrite Hop in Hin.
    pose proof (run_avoids is_hide_call _ o sched _ opening_never_hides Hin) as H.
    discriminate.
  - intros Hop Hin. rewrite Hop in Hin.
    pose proof (run_avoids is_show_call _ o sched _ closing_never_shows Hin) as H.
    discriminate.
Qed.

Lemma pipeline_never_crosses_witness :
  ~ In (Called HidePopover)
      (log (drive [Wake 0 false; Owner (with_open false); Wake 0 false; Wake 0 false]
              (spawn managePopoverOpen (initial sample))))
  /\ ~ In (Called ShowPopover)
         (log (drive (frames 8) (spawn managePopoverOpen (initial presented_sample)))).
Proof.
  split.
  - exact (proj1 (pipeline_never_crosses sample
                    [Wake 0 false; Owner (with_open false); Wake 0 false; Wake 0 false])
             eq_refl).
  - exact (proj2 (pipeline_never_crosses presented_sample (frames 8)) eq_refl).
Defined.

(** ** Who writes the open flags of the elements *)

Lemma effect_keeps_flags :
  forall cmd o, is_write_el cmd = false -> open_flags (effect cmd o) = open_flags o.
Proof. intros [] o H; try reflexivity; discriminate. Qed.

Lemma sync_keeps_flags :
  forall (A : Type) (p : proc A) (c : Config),
    avoids is_write_el p -> open_flags (world (snd (sync p c))) = open_flags (world c).
Proof.
  induction p as [A a|A k IH|A cmd k IH|A w k IH|A s k IH
                 |A body IHb handler IHh k IHk|A p IHp k IHk
                 |A w cb IHcb k IHk|A k IH|A v k IH];
    intros c Hp; cbn [sync avoids] in *.
  - reflexivity.
  - now apply IH.
  - destruct Hp as [Hc Hk]. rewrite (IH _ Hk). cbn. now apply effect_keeps_flags.
  - reflexivity.
  - destruct Hp as [_ Hk].
    destruct (dialogEl_matches (world c) s) as [b|]; [|reflexivity].
    now rewrite (IH b _ (Hk b)).
  - destruct Hp as [Hbody [Hhandler Hk]].
    pose proof (IHb c Hbody) as H1.
    destruct (sync body c) as [[b| |w kb] c1]; cbn [snd] in *.
    + now rewrite (IHk b c1 (Hk b)).
    + pose proof (IHh c1 Hhandler) as H2.
      destruct (sync handler c1) as [[b| |w kh] c2]; cbn [snd] in *;
        try congruence.
      rewrite (IHk b c2 (Hk b)). congruence.
    + exact H1.
  - destruct Hp as [Hp Hk].
    pose proof (IHp c Hp) as H1.
    destruct (sync p c) as [[u| |w kp] c1]; cbn [snd] in *;
      rewrite (IHk _ Hk); exact H1.
  - destruct Hp as [_ Hk]. now rewrite (IHk _ Hk).
  - now apply IH.
  - now rewrite (IH _ Hp).
Qed.

Lemma spawn_keeps_flags :
  forall p c, avoids is_write_el p -> open_flags (world (spawn p c)) = open_flags (world c).
Proof.
  intros p c Hp. unfold spawn. pose proof (sync_keeps_flags _ p c Hp) as H.
  destruct (sync p c) as [[u| |w k] c1]; exact H.
Qed.

Lemma drive_keeps_flags :
  forall sched c,
    config_avoids is_write_el c ->
    Forall (fun s => is_owner s = false) sched ->
    open_flags (world (drive sched c)) = open_flags (world c).
Proof.
  induction sched as [|s sched IH]; intros c Hc Hs; cbn [drive]; [reflexivity|].
  inversion Hs as [|s' sched' Hhead Htail]; subst.
  rewrite IH; [|now apply react_avoids|exact Htail].
  destruct s as [f|i b]; [discriminate|]. cbn [react]. unfold wake.
  destruct (take_nth i (pool c)) as [[[w k] rest]|] eqn:E; [|reflexivity].
  destruct (take_nth_In _ _ _ _ _ E) as [Hin _]. destruct Hc as [_ Hp].
  rewrite Forall_forall in Hp. rewrite spawn_keeps_flags; [reflexivity|].
  apply (Hp _ Hin).
Qed.

Lemma run_keeps_flags :
  forall p o sched,
    avoids is_write_el p ->
    (forall j b, ~ In (Called (WriteElOpen j b)) (log (drive sched (spawn p (initial o)))))
    /\ (Forall (fun s => is_owner s = false) sched ->
        open_flags (world (drive sched (spawn p (initial o)))) = open_flags o).
Proof.
  intros p o sched Hp. split.
  - intros j b Hin. pose proof (run_avoids is_write_el p o sched _ Hp Hin) as H.
    discriminate.
  - intros Hs. rewrite drive_keeps_flags; [|apply spawn_avoids|exact Hs].
    + now rewrite spawn_keeps_flags.
    + exact Hp.
    + split; constructor.
Qed.

(** X12: the DOM-attach phase, every completion callback with its
    report-change step, and the focus phase never assign the open flag of an
    element, under any schedule, and when the owner stays away the flags
    after them are the flags before them.  The flags of a run are written by
    the start callbacks alone, which do write them. *)
Theorem only_start_writes_open_flags :
  forall (t : bool) (fe : option Node) (i : nat) (o : Overlay) (sched : list Stimulus),
    let attach := drive sched (spawn (ensureOnDOM t) (initial o)) in
    let complete := drive sched (spawn (finish t i) (initial o)) in
    let focus := drive sched (spawn (applyFocus t fe) (initial o)) in
    (forall j b, ~ In (Called (WriteElOpen j b)) (log attach ++ log complete ++ log focus))
    /\ (Forall (fun s => is_owner s = false) sched ->
        open_flags (world attach) = open_flags o
        /\ open_flags (world complete) = open_flags o
        /\ open_flags (world focus) = open_flags o)
    /\ (let started := spawn (start true sample_el 0) (initial sample) in
        In (Called (WriteElOpen 0 true)) (log started)
        /\ open_flags sample = [Some false; Some false]
        /\ open_flags (world started) = [Some true; Some false]).
Proof.
  intros t fe i o sched attach complete focus.
  assert (Ha : avoids is_write_el (ensureOnDOM t)).
  { unfold ensureOnDOM, stale, nextFrame, this, call, await, try_catch, matches.
    avoid_tac. }
  assert (Hc : avoids is_write_el (finish t i)) by (now apply finish_avoids).
  assert (Hf : avoids is_write_el (applyFocus t fe)).
  { unfold applyFocus, stale, nextFrame, this, call, await. avoid_tac. }
  destruct (run_keeps_flags _ o sched Ha) as [A1 A2].
  destruct (run_keeps_flags _ o sched Hc) as [C1 C2].
  destruct (run_keeps_flags _ o sched Hf) as [F1 F2].
  split; [|split].
  - intros j b Hin. apply in_app_or in Hin. destruct Hin as [Hin|Hin]; [now apply (A1 j b)|].
    apply in_app_or in Hin. destruct Hin as [Hin|Hin]; [now apply (C1 j b) | now apply (F1 j b)].
  - intros Hs. repeat split; auto.
  - split; [cbn; auto | split; reflexivity].
Qed.

Lemma only_start_writes_open_flags_witness :
  open_flags (world (drive [Wake 0 false; Wake 0 false]
                       (spawn (finish false 0) (initial presented_sample))))
  = [Some false; Some false].
Proof.
  assert (Hs : Forall (fun s => is_owner s = false) [Wake 0 false; Wake 0 false])
    by (repeat constructor).
  exact (proj1 (proj2 (proj1 (proj2 (only_start_writes_open_flags false None 0
                                       presented_sample [Wake 0 false; Wake 0 false]))
                         Hs))).
Defined.

(** ** From the transition phase to the focus phase *)

Lemma pipeline_tail :
  forall t,
    pipeline_from_delay t =
    (awaited (manageDelay t) ;;
     s1 <- stale t ;;
     if s1 then Ret tt
     else awaited (ensureOnDOM t) ;;
          s2 <- stale t ;;
          if s2 then Ret tt else transition_and_focus t).
Proof. reflexivity. Qed.

Lemma finishers_length :
  forall t els i, List.length (finishers t els i) = List.length els.
Proof.
  intros t. induction els as [|el rest IH]; intros i; cbn; [reflexivity|].
  now rewrite IH.
Qed.

Lemma effects_app : forall l1 l2, effects (l1 ++ l2) = effects l1 ++ effects l2.
Proof.
  intros. unfold effects, calls. now rewrite flat_map_app, filter_app.
Qed.

(** *** A run continues behind what has been logged and is waiting *)

Section Behind.
Variable l : list Entry.
Variable F : list (Waiting * (bool -> proc unit)).

Lemma note_behind : forall e c, note e (behind l F c) = behind l F (note e c).
Proof. intros e c. unfold note, behind. cbn. now rewrite app_assoc. Qed.

Lemma park_behind : forall w k c, park w k (behind l F c) = behind l F (park w k c).
Proof. intros w k c. unfold park, behind. cbn. now rewrite app_assoc. Qed.

Lemma perform_behind : forall cmd c, perform cmd (behind l F c) = behind l F (perform cmd c).
Proof. intros cmd c. unfold perform, note, behind. cbn. now rewrite app_assoc. Qed.

Lemma sync_behind :
  forall (A : Type) (p : proc A) (c : Config),
    sync p (behind l F c) = (fst (sync p c), behind l F (snd (sync p c))).
Proof.
  induction p as [A a|A k IH|A cmd k IH|A w k IH|A s k IH
                 |A body IHb handler IHh k IHk|A p IHp k IHk
                 |A w cb IHcb k IHk|A k IH|A v k IH];
    intros c; cbn [sync].
  - reflexivity.
  - apply IH.
  - rewrite perform_behind. apply IH.
  - now rewrite note_behind.
  - rewrite note_behind. change (world (behind l F c)) with (world c).
    destruct (dialogEl_matches (world c) s) as [b|]; [apply IH | reflexivity].
  - rewrite IHb. destruct (sync body c) as [[b| |w kb] c1]; cbn [fst snd].
    + apply IHk.
    + rewrite IHh. destruct (sync handler c1) as [[b| |w kh] c2]; cbn [fst snd];
        [apply IHk | reflexivity | reflexivity].
    + reflexivity.
  - rewrite IHp. destruct (sync p c) as [[u| |w kp] c1]; cbn [fst snd].
    + apply IHk.
    + rewrite note_behind. apply IHk.
    + rewrite park_behind. apply IHk.
  - rewrite park_behind. apply IHk.
  - apply IH.
  - apply (IH (set_focus_var v c)).
Qed.

Lemma spawn_behind : forall p c, spawn p (behind l F c) = behind l F (spawn p c).
Proof.
  intros p c. unfold spawn. rewrite sync_behind.
  destruct (sync p c) as [[u| |w k] c1]; cbn [fst snd settle].
  - reflexivity.
  - apply note_behind.
  - apply park_behind.
Qed.

Lemma take_nth_behind :
  forall (P : list (Waiting * (bool -> proc unit))) i,
    take_nth (i + List.length F) (F ++ P)
    = match take_nth i P with
      | Some (x, r) => Some (x, F ++ r)
      | None => None
      end.
Proof.
  intros P i. induction F as [|a F' IH]; cbn [List.length app].
  - rewrite Nat.add_0_r. destruct (take_nth i P) as [[x r]|]; reflexivity.
  - rewrite Nat.add_succ_r. cbn [take_nth]. rewrite IH.
    destruct (take_nth i P) as [[x r]|]; reflexivity.
Qed.

Lemma wake_behind :
  forall i b c, wake (i + List.length F) b (behind l F c) = behind l F (wake i b c).
Proof.
  intros i b c. unfold wake. cbn [pool behind]. rewrite take_nth_behind.
  destruct (take_nth i (pool c)) as [[[w k] rest]|]; [|reflexivity].
  change (note (Resumed w) (set_pool (F ++ rest) (behind l F c)))
    with (note (Resumed w) (behind l F (set_pool rest c))).
  rewrite note_behind. apply spawn_behind.
Qed.

Lemma drive_behind :
  forall sched c,
    drive (map (later (List.length F)) sched) (behind l F c) = behind l F (drive sched c).
Proof.
  induction sched as [|s sched IH]; intros c; cbn [map drive]; [reflexivity|].
  destruct s as [f|i b]; cbn [later react].
  - apply (IH (set_world (f (world c)) c)).
  - rewrite wake_behind. apply IH.
Qed.
End Behind.

(** X13: in a run that nobody interrupts, the transition phase and the focus
    phase compose as follows: after the start callbacks, once the caller is
    resumed and two frames later, without waiting for any completion
    callback, an opening run focuses the first focus candidate of the
    elements (nothing if there is none) and a closing run returns focus to a
    real trigger when the active element is inside the overlay; nothing else
    observable happens in between, and when the run has returned only the
    completion callbacks are left waiting. *)
Theorem transition_then_focus :
  forall (t : bool) (o : Overlay) (b0 b1 b2 b3 : bool),
    open o = t ->
    focus_disabled o = false ->
    let n := List.length (elements o) in
    let c := drive [Wake n b0; Wake n b1; Wake n b2; Wake n b3]
               (spawn (transition_and_focus t) (initial o)) in
    effects (log c)
    = effects (map Called (transition_calls t (elements o) 0)) ++ expected_focus t o
    /\ pool c = finishers t (elements o) 0.
Proof.
  intros t o b0 b1 b2 b3 Ht Hdis n c. subst c n.
  unfold spawn, transition_and_focus, awaited.
  destruct (makeTransition_span t (initial o) Ht) as [v [c' [H1 [H2 [H3 _]]]]].
  destruct (makeTransition_state t (initial o) Ht) as [S1 S2].
  rewrite H1 in S1, S2. cbn [fst snd initial world log pool app] in S1, S2, H2, H3.
  rewrite (sync_bind_bind_done _ _ _ _ _ _ _ _ _ H1).
  destruct c' as [w' fe' l' pl']. cbn [world log pool] in S2, H2, H3.
  inversion S1 as [Hv]. clear S1. subst w' l' pl'.
  rewrite <- (finishers_length t (elements o) 0).
  remember (finishers t (elements o) 0) as F eqn:EF. clear EF.
  remember (map Called (transition_calls t (elements o) 0)) as L eqn:EL. clear EL.
  match goal with
  | |- context [settle (sync ?p ?c)] => change (settle (sync p c)) with (spawn p c)
  end.
  match goal with
  | |- context [spawn _ {| world := ?W; focusEl := ?f; log := L; pool := F |}] =>
      replace {| world := W; focusEl := f; log := L; pool := F |}
        with (behind L F {| world := W; focusEl := f; log := []; pool := [] |})
        by (unfold behind; cbn [world focusEl log pool]; now rewrite !app_nil_r)
  end.
  rewrite spawn_behind.
  change [Wake (List.length F) b0; Wake (List.length F) b1;
          Wake (List.length F) b2; Wake (List.length F) b3]
    with (map (later (List.length F)) [Wake 0 b0; Wake 0 b1; Wake 0 b2; Wake 0 b3]).
  rewrite drive_behind. cbn [log pool behind]. rewrite effects_app.
  match goal with
  | |- effects L ++ effects (log ?c) = _ /\ F ++ pool ?c = F =>
      assert (Hc : effects (log c) = expected_focus t o /\ pool c = [])
  end.
  { unfold expected_focus.
    destruct o as [op dl rf ty tr ic els m1 m2 ca].
    cbn [open elements triggerElement contains_activeElement] in *.
    unfold focus_disabled in Hdis. cbn [receivesFocus type] in Hdis. subst op.
    destruct (first_candidate els) as [m|];
      destruct t, tr as [[k|]|], ca, rf, ty; try discriminate Hdis;
      vm_compute; split; reflexivity. }
  destruct Hc as [He Hp]. rewrite He, Hp, app_nil_r. split; reflexivity.
Qed.

Lemma transition_then_focus_witness :
  effects (log (drive [Wake 2 false; Wake 2 false; Wake 2 false; Wake 2 false]
                  (spawn (transition_and_focus true) (initial sample))))
  = [WriteElOpen 0 true; DispatchEvent OnRoot BeforetoggleOpenEvent;
     WriteElOpen 1 true; FocusNode 7].
Proof.
  exact (proj1 (transition_then_focus true sample false false false false
                  eq_refl eq_refl)).
Defined.
